(** * Completion engine of the Swift immediate mode (tools/swift/Completion.cpp)

    A shallow embedding of [REPLCompletions] and of the code completion
    consumer that feeds it, together with the properties of the completion
    session that the design document states.

    The lexer, the parser, the type checker and the completion generator are
    collaborators whose code lives elsewhere: they are parameters of the
    development (the class [Frontend]), and every theorem holds for all of
    them. *)

From Stdlib Require Import List String Ascii Bool Arith NArith Lia.
Import ListNotations.
Local Open Scope string_scope.

(** ** Strings

    [std::string] and [llvm::StringRef] values are [string]s; the three
    operations below are the ones the source uses on them. *)

(** [StringRef(s).startswith(p)]: a byte-wise comparison of the first
    [p.size()] bytes, false when [s] is shorter than [p]. *)
Fixpoint startswith (s p : string) : bool :=
  match p with
  | EmptyString => true
  | String c p' =>
      match s with
      | EmptyString => false
      | String d s' => Ascii.eqb d c && startswith s' p'
      end
  end.

(** [s.substr(n)]: what is left of [s] after its first [n] bytes.
    [StringRef::substr] clamps [n] to the size; [std::string::substr] is only
    called, in the source, with [n <= s.size()]. *)
Fixpoint substr (s : string) (n : nat) {struct n} : string :=
  match n with
  | O => s
  | S n' =>
      match s with
      | EmptyString => EmptyString
      | String _ s' => substr s' n'
      end
  end.

(** [s.substr(0, n)], and [s.resize(n)] for [n <= s.size()]: the first [n]
    bytes of [s]. *)
Fixpoint truncate (s : string) (n : nat) {struct n} : string :=
  match n with
  | O => EmptyString
  | S n' =>
      match s with
      | EmptyString => EmptyString
      | String c s' => String c (truncate s' n')
      end
  end.

(** ** Completion strings *)

Module ChunkKind.
(** Modelled from the spec: the enumeration [ChunkKind] is declared in
    swift/IDE/CodeCompletion.h; its kinds are the ones the design document
    lists, which are the cases of the switch of [toInsertableString]. *)
Inductive ChunkKind : Type :=
| Text
| LeftParen
| RightParen
| LeftBracket
| RightBracket
| Dot
| Comma
| CallParameterName
| CallParameterNameAnnotation
| CallParameterColon
| CallParameterColonAnnotation
| CallParameterType
| OptionalBegin
| CallParameterBegin
| TypeAnnotation.
End ChunkKind.
Import ChunkKind.

Module Chunk.
(** A chunk, with what [toInsertableString] reads of it. *)
Record Chunk : Type := mk { getKind : ChunkKind; getText : string }.
End Chunk.
Abbreviation Chunk := Chunk.Chunk.

(** A raw completion result: its completion string (the chunks) and what
    [Result->print(OS)] writes for it. *)
Record CodeCompletionResult : Type := mkResult {
  getChunks : list Chunk;
  print : string
}.

(** The first group of cases of the switch in [toInsertableString]: the chunk
    kinds whose text is appended. *)
Definition appended (k : ChunkKind) : bool :=
  match k with
  | Text | LeftParen | RightParen | LeftBracket | RightBracket | Dot | Comma =>
      true
  | CallParameterName | CallParameterNameAnnotation | CallParameterColon
  | CallParameterColonAnnotation | CallParameterType | OptionalBegin
  | CallParameterBegin | TypeAnnotation =>
      false
  end.

(** The loop of [toInsertableString], with the accumulator [Str]. *)
Fixpoint toInsertableString_loop (Str : string) (Chunks : list Chunk) : string :=
  match Chunks with
  | [] => Str
  | C :: Rest =>
      match Chunk.getKind C with
      | Text | LeftParen | RightParen | LeftBracket | RightBracket | Dot
      | Comma =>
          toInsertableString_loop (Str ++ Chunk.getText C) Rest
      | CallParameterName | CallParameterNameAnnotation | CallParameterColon
      | CallParameterColonAnnotation | CallParameterType | OptionalBegin
      | CallParameterBegin | TypeAnnotation =>
          Str
      end
  end.

Definition toInsertableString (Result : CodeCompletionResult) : string :=
  toInsertableString_loop "" (getChunks Result).

(** The longest run of leading chunks whose text is appended. *)
Fixpoint leading_literals (Chunks : list Chunk) : list Chunk :=
  match Chunks with
  | [] => []
  | C :: Rest => if appended (Chunk.getKind C) then C :: leading_literals Rest else []
  end.

(** ** The completion session *)

(** Modelled from the spec: the enumeration [CompletionState] is declared in
    Completion.h; these are the states the design document lists. *)
Inductive CompletionState : Type :=
| Invalid
| Empty
| Unique
| CompletedRoot.

(** [size_t] is 64 bits wide and [unsigned] 32 bits wide. *)
Definition SIZE_MAX : N := 2 ^ 64 - 1.
Definition to_size_t (n : N) : N := n mod 2 ^ 64.
Definition to_unsigned (n : N) : N := n mod 2 ^ 32.

(** The members of [REPLCompletions] that Completion.cpp reads and writes.
    [CurrentCompletionIdx] is a [size_t]; the two vectors hold [StringRef]s
    into the memory of the session's [CompletionContext], where [copyString]
    puts them. *)
Record REPLCompletions : Type := mkCompletions {
  State : CompletionState;
  Prefix : string;
  Root : option string;
  CompletionStrings : list string;
  CompletionInsertableStrings : list string;
  CurrentCompletionIdx : N
}.

(** *** The consumer *)

(** The body of the loop of [REPLCodeCompletionConsumer::handleResults]. *)
Definition handleResult (Completions : REPLCompletions)
    (Result : CodeCompletionResult) : REPLCompletions :=
  let InsertableString := toInsertableString Result in
  if startswith InsertableString (Prefix Completions) then
    {| State := State Completions;
       Prefix := Prefix Completions;
       Root := Root Completions;
       CompletionStrings := CompletionStrings Completions ++ [print Result];
       CompletionInsertableStrings :=
         CompletionInsertableStrings Completions
           ++ [substr InsertableString (String.length (Prefix Completions))];
       CurrentCompletionIdx := CurrentCompletionIdx Completions |}
  else Completions.

Definition handleResults (Completions : REPLCompletions)
    (Results : list CodeCompletionResult) : REPLCompletions :=
  fold_left handleResult Results Completions.

(** ** The borrowed program state *)

Inductive outcome (A : Type) : Type :=
| Returns (a : A)        (* the call returns *)
| AssertionFailed        (* an [assert] of the source fails *)
| OutOfFuel.             (* the parser has not reported [Done] yet *)
Arguments Returns {A} a.
Arguments AssertionFailed {A}.
Arguments OutOfFuel {A}.

Module tok.
(** What [populate] asks of a token kind: [is(tok::identifier)] and
    [isKeyword()]. *)
Inductive kind : Type := identifier | keyword | other.
End tok.

(** A token: its kind, its text, and where it starts, as an offset from the
    start of its buffer ([getLoc().Value.getPointer()] minus the start of the
    buffer). *)
Record Token : Type := mkToken {
  getKind : tok.kind;
  getText : string;
  getLoc : N
}.

Definition isIdentifierOrKeyword (T : Token) : bool :=
  match getKind T with
  | tok.identifier | tok.keyword => true
  | tok.other => false
  end.

Module TranslationUnit.
Inductive TUKind : Type := REPL | NotREPL.
End TranslationUnit.

Section ProgramState.

Variables Decl DiagnosticConsumer : Type.

Record DiagnosticEngine : Type := mkDiags {
  Consumers : list DiagnosticConsumer;
  HadAnyError : bool
}.

(** [SourceMgr] is the list of registered buffers, each with its text and
    its name. *)
Record ASTContext : Type := mkContext {
  Diags : DiagnosticEngine;
  SourceMgr : list (string * string)
}.

Record TranslationUnit : Type := mkTU {
  Kind : TranslationUnit.TUKind;
  Decls : list Decl;
  getASTContext : ASTContext
}.

End ProgramState.

Arguments mkDiags {DiagnosticConsumer}.
Arguments Consumers {DiagnosticConsumer}.
Arguments HadAnyError {DiagnosticConsumer}.
Arguments mkContext {DiagnosticConsumer}.
Arguments Diags {DiagnosticConsumer}.
Arguments SourceMgr {DiagnosticConsumer}.
Arguments mkTU {Decl DiagnosticConsumer}.
Arguments Kind {Decl DiagnosticConsumer}.
Arguments Decls {Decl DiagnosticConsumer}.
Arguments getASTContext {Decl DiagnosticConsumer}.

(** The collaborators of the completion engine.  Each of them receives the
    whole translation unit and may return any translation unit. *)
Class Frontend : Type := {
  Decl : Type;
  (** the value [std::vector::resize] fills new slots with *)
  nullDecl : Decl;
  DiagnosticConsumer : Type;
  PersistentParserState : Type;
  (** a default-constructed [PersistentParserState] *)
  freshParserState : PersistentParserState;
  (** [parseIntoTranslationUnit(TU, BufferID, &Done, CodeCompletionOffset,
      nullptr, &PersistentState, DelayedCB)]: the translation unit and the
      parser state it leaves, and [Done] *)
  parseIntoTranslationUnit :
    TranslationUnit Decl DiagnosticConsumer -> N -> N ->
    PersistentParserState ->
    TranslationUnit Decl DiagnosticConsumer * PersistentParserState * bool;
  (** [performTypeChecking(TU, CurTUElem)] *)
  performTypeChecking :
    TranslationUnit Decl DiagnosticConsumer -> N ->
    TranslationUnit Decl DiagnosticConsumer;
  (** [performDelayedParsing(TU, PersistentState, CompletionCallbacksFactory,
      CodeCompletionOffset)]: the translation unit it leaves and the batches
      of results it hands, in this order, to the consumer's [handleResults] *)
  performDelayedParsing :
    TranslationUnit Decl DiagnosticConsumer -> PersistentParserState -> N ->
    TranslationUnit Decl DiagnosticConsumer * list (list CodeCompletionResult);
  (** [tokenize(SourceMgr, BufferID)] *)
  tokenize : list (string * string) -> N -> list Token
}.

(** The bytes that follow the stored insertable strings in memory: the
    strings are [StringRef]s into the completion context's allocator, and
    [beyond k i] is the byte at [CompletionInsertableStrings[k].begin() + i]
    for [i] at or past the size of that string. *)
Class Arena : Type := { beyond : nat -> nat -> ascii }.

Section Session.

Context {F : Frontend}.

Local Abbreviation TU := (TranslationUnit Decl DiagnosticConsumer).

(** Modelled from the spec: [Diags.takeConsumers()], which is not in this
    file; the consumers are detached (the engine is left with none) and
    handed to the caller. *)
Definition takeConsumers (T : TU) : list DiagnosticConsumer * TU :=
  (Consumers (Diags (getASTContext T)),
   mkTU (Kind T) (Decls T)
        (mkContext (mkDiags [] (HadAnyError (Diags (getASTContext T))))
                   (SourceMgr (getASTContext T)))).

(** Modelled from the spec: [Diags.addConsumer] on [*DC], which is not in this
    file; the consumer is attached after those the engine already has. *)
Definition addConsumer (T : TU) (DC : DiagnosticConsumer) : TU :=
  mkTU (Kind T) (Decls T)
       (mkContext
          (mkDiags (Consumers (Diags (getASTContext T)) ++ [DC])
                   (HadAnyError (Diags (getASTContext T))))
          (SourceMgr (getASTContext T))).

(** Modelled from the spec: [Diags.resetHadAnyError()], which is not in
    this file; the accumulated error flag is cleared. *)
Definition resetHadAnyError (T : TU) : TU :=
  mkTU (Kind T) (Decls T)
       (mkContext (mkDiags (Consumers (Diags (getASTContext T))) false)
                  (SourceMgr (getASTContext T))).

(** Modelled from the spec: [SourceMgr.AddNewSourceBuffer(Buffer, SMLoc())],
    which is not in this file; the buffer is registered after the existing
    ones and its identifier is its position. *)
Definition AddNewSourceBuffer (T : TU) (Buffer : string * string) : N * TU :=
  (to_unsigned (N.of_nat (List.length (SourceMgr (getASTContext T)))),
   mkTU (Kind T) (Decls T)
        (mkContext (Diags (getASTContext T))
                   (SourceMgr (getASTContext T) ++ [Buffer]))).

(** [v.resize(n)] of [std::vector]: the first [n] elements, followed by
    null elements when [v] has fewer than [n]. *)
Definition resize {A : Type} (v : list A) (n : nat) (null : A) : list A :=
  firstn n v ++ repeat null (n - List.length v).

Definition setDecls (T : TU) (D : list Decl) : TU :=
  mkTU (Kind T) D (getASTContext T).

(** The [do ... while (!Done)] loop of [doCodeCompletion]; [fuel] bounds
    the number of chunks the parser is asked for. *)
Fixpoint parse_loop (fuel : nat) (T : TU) (BufferID CodeCompletionOffset : N)
    (CurTUElem : N) (PersistentState : PersistentParserState)
    : outcome (TU * PersistentParserState) :=
  match fuel with
  | O => OutOfFuel
  | S fuel' =>
      let '(T1, PersistentState1, Done) :=
        parseIntoTranslationUnit T BufferID CodeCompletionOffset
                                 PersistentState in
      let T2 := performTypeChecking T1 CurTUElem in
      let CurTUElem2 := to_unsigned (N.of_nat (List.length (Decls T2))) in
      if Done then Returns (T2, PersistentState1)
      else parse_loop fuel' T2 BufferID CodeCompletionOffset CurTUElem2
                      PersistentState1
  end.

(** [doCodeCompletion(TU, EnteredCode, &BufferID, Factory)].  The factory
    feeds the consumer of the session [Completions], so the results the
    completion pass produces reach [handleResults] of that session. *)
Definition doCodeCompletion (fuel : nat) (T : TU) (EnteredCode : string)
    (Completions : REPLCompletions) : outcome (TU * N * REPLCompletions) :=
  (* Temporarily disable printing the diagnostics. *)
  let '(DiagnosticConsumers, T) := takeConsumers T in
  let AugmentedCode := EnteredCode ++ String zero "" in
  let CodeCompletionOffset :=
    to_unsigned (N.of_nat (String.length AugmentedCode) - 1) in
  let AugmentedCode := AugmentedCode ++ " #" in
  let '(BufferID, T) := AddNewSourceBuffer T (AugmentedCode, "<REPL Input>") in
  let OriginalDeclCount := to_unsigned (N.of_nat (List.length (Decls T))) in
  let CurTUElem := to_unsigned (N.of_nat (List.length (Decls T))) in
  match parse_loop fuel T BufferID CodeCompletionOffset CurTUElem
                   freshParserState with
  | Returns (T, PersistentState) =>
      let '(T, Batches) :=
        performDelayedParsing T PersistentState CodeCompletionOffset in
      let Completions := fold_left handleResults Batches Completions in
      (* Remove the declarations we temporarily inserted. *)
      let T :=
        setDecls T (resize (Decls T) (N.to_nat OriginalDeclCount) nullDecl) in
      (* Add the diagnostic consumers back. *)
      let T := fold_left addConsumer DiagnosticConsumers T in
      let T := resetHadAnyError T in
      Returns (T, BufferID, Completions)
  | AssertionFailed => AssertionFailed
  | OutOfFuel => OutOfFuel
  end.

(** The last statement of [populate]. *)
Definition classify (Completions : REPLCompletions) : REPLCompletions :=
  mkCompletions
    (match CompletionInsertableStrings Completions with
     | [] => Empty
     | [_] => Unique
     | _ :: _ :: _ => CompletedRoot
     end)
    (Prefix Completions) (Root Completions)
    (CompletionStrings Completions)
    (CompletionInsertableStrings Completions)
    (CurrentCompletionIdx Completions).

(** The assignments [populate] starts with. *)
Definition clear (Completions : REPLCompletions) : REPLCompletions :=
  mkCompletions (State Completions) "" None [] [] SIZE_MAX.

Definition setPrefix (Completions : REPLCompletions) (P : string)
    : REPLCompletions :=
  mkCompletions (State Completions) P (Root Completions)
                (CompletionStrings Completions)
                (CompletionInsertableStrings Completions)
                (CurrentCompletionIdx Completions).

(** [REPLCompletions::populate(TU, EnteredCode)].  The [assert] is taken as
    compiled in: on a translation unit that is not of the REPL kind the call
    does not return. *)
Definition populate (fuel : nat) (T : TU) (EnteredCode : string)
    (Completions : REPLCompletions) : outcome (TU * REPLCompletions) :=
  let Completions := clear Completions in
  match Kind T with
  | TranslationUnit.NotREPL => AssertionFailed
  | TranslationUnit.REPL =>
      match doCodeCompletion fuel T EnteredCode Completions with
      | Returns (T, BufferID, Completions) =>
          let Tokens := tokenize (SourceMgr (getASTContext T)) BufferID in
          match last (map Some Tokens) None with
          | Some LastToken =>
              if isIdentifierOrKeyword LastToken then
                let Completions := setPrefix Completions (getText LastToken) in
                let Offset := to_unsigned (getLoc LastToken) in
                match doCodeCompletion fuel T
                        (truncate EnteredCode (N.to_nat Offset))
                        Completions with
                | Returns (T, _, Completions) =>
                    Returns (T, classify Completions)
                | AssertionFailed => AssertionFailed
                | OutOfFuel => OutOfFuel
                end
              else Returns (T, classify Completions)
          | None => Returns (T, classify Completions)
          end
      | AssertionFailed => AssertionFailed
      | OutOfFuel => OutOfFuel
      end
  end.

(** The parser reports [Done] after finitely many chunks: the loop of
    [doCodeCompletion] started in this configuration comes to an end. *)
Inductive parse_finishes
    : TU -> N -> N -> N -> PersistentParserState -> Prop :=
| finishes_done : forall T BufferID Offset CurTUElem PersistentState T1 PS1,
    parseIntoTranslationUnit T BufferID Offset PersistentState
      = (T1, PS1, true) ->
    parse_finishes T BufferID Offset CurTUElem PersistentState
| finishes_more : forall T BufferID Offset CurTUElem PersistentState T1 PS1,
    parseIntoTranslationUnit T BufferID Offset PersistentState
      = (T1, PS1, false) ->
    parse_finishes
      (performTypeChecking T1 CurTUElem) BufferID Offset
      (to_unsigned
         (N.of_nat (List.length (Decls (performTypeChecking T1 CurTUElem)))))
      PS1 ->
    parse_finishes T BufferID Offset CurTUElem PersistentState.

End Session.

(** ** Navigation: root and stems *)

Section Navigation.

Context {A : Arena}.

(** [*(S.begin() + i)], where [S] (here [Cand]) is the [k]-th stored
    insertable string.  Nothing in [getRoot] compares [i] with the size of
    [S]: at or past the end the byte read is whatever follows the string in
    memory. *)
Definition deref (k : nat) (Cand : string) (i : nat) : ascii :=
  match String.get i Cand with
  | Some c => c
  | None => beyond k i
  end.

(** [std::mismatch(first1, last1, S.begin())]: [R] is what is left of the
    range [first1, last1), [i] the distance already covered; the result is
    the distance of the mismatch place from [RootStr.begin()]. *)
Fixpoint mismatch (R : string) (k : nat) (Cand : string) (i : nat) : nat :=
  match R with
  | EmptyString => i
  | String c R' =>
      if Ascii.eqb c (deref k Cand i) then mismatch R' k Cand (S i)
      else i
  end.

(** The offsets of [S] that [std::mismatch] reads, in order. *)
Fixpoint mismatch_reads (R : string) (k : nat) (Cand : string) (i : nat)
    : list nat :=
  match R with
  | EmptyString => []
  | String c R' =>
      i :: (if Ascii.eqb c (deref k Cand i)
            then mismatch_reads R' k Cand (S i) else [])
  end.

(** The [for (auto S : CompletionInsertableStrings)] loop of [getRoot];
    [k] is the position of the first string of [Rest] in the vector. *)
Fixpoint getRoot_loop (RootStr : string) (k : nat) (Rest : list string)
    : string :=
  match Rest with
  | [] => RootStr
  | Cand :: Rest' =>
      let MismatchPlace := mismatch RootStr k Cand 0 in
      getRoot_loop (truncate RootStr MismatchPlace) (S k) Rest'
  end.

(** One comparison of the scan: the string of the vector that is read, the
    offset read in it and in [RootStr], and the sizes of the two strings. *)
Record Comparison : Type := mkComparison {
  candidate : nat;
  offset : nat;
  RootStr_size : nat;
  candidate_size : nat
}.

(** The comparisons of the loop of [getRoot], in order. *)
Fixpoint getRoot_loop_reads (RootStr : string) (k : nat) (Rest : list string)
    : list Comparison :=
  match Rest with
  | [] => []
  | Cand :: Rest' =>
      map (fun i => mkComparison k i (String.length RootStr) (String.length Cand))
          (mismatch_reads RootStr k Cand 0)
        ++ getRoot_loop_reads (truncate RootStr (mismatch RootStr k Cand 0))
             (S k) Rest'
  end.

Definition setRoot (Completions : REPLCompletions) (R : string)
    : REPLCompletions :=
  mkCompletions (State Completions) (Prefix Completions) (Some R)
                (CompletionStrings Completions)
                (CompletionInsertableStrings Completions)
                (CurrentCompletionIdx Completions).

(** [REPLCompletions::getRoot()]; [Root] is [mutable], so the session is
    returned with the value. *)
Definition getRoot (Completions : REPLCompletions)
    : string * REPLCompletions :=
  match Root Completions with
  | Some R => (R, Completions)
  | None =>
      match CompletionInsertableStrings Completions with
      | [] => ("", setRoot Completions "")
      | S0 :: _ =>
          let RootStr :=
            getRoot_loop S0 0 (CompletionInsertableStrings Completions) in
          (RootStr, setRoot Completions RootStr)
      end
  end.

(** The comparisons [getRoot()] makes. *)
Definition getRoot_reads (Completions : REPLCompletions) : list Comparison :=
  match Root Completions with
  | Some _ => []
  | None =>
      match CompletionInsertableStrings Completions with
      | [] => []
      | S0 :: _ =>
          getRoot_loop_reads S0 0 (CompletionInsertableStrings Completions)
      end
  end.

Definition in_bounds (c : Comparison) : Prop :=
  offset c < RootStr_size c /\ offset c < candidate_size c.

Definition isEmpty {X : Type} (v : list X) : bool :=
  match v with [] => true | _ :: _ => false end.

(** [REPLCompletions::getPreviousStem()].  [None] is an access to the
    vector outside of its elements. *)
Definition getPreviousStem (Completions : REPLCompletions)
    : option (string * REPLCompletions) :=
  if (CurrentCompletionIdx Completions =? SIZE_MAX)%N
     || isEmpty (CompletionInsertableStrings Completions)
  then Some ("", Completions)
  else
    match nth_error (CompletionInsertableStrings Completions)
                    (N.to_nat (CurrentCompletionIdx Completions)) with
    | Some Cand =>
        let '(R, Completions) := getRoot Completions in
        Some (substr Cand (String.length R), Completions)
    | None => None
    end.

Definition setIdx (Completions : REPLCompletions) (Idx : N)
    : REPLCompletions :=
  mkCompletions (State Completions) (Prefix Completions) (Root Completions)
                (CompletionStrings Completions)
                (CompletionInsertableStrings Completions) Idx.

(** [REPLCompletions::getNextStem()]. *)
Definition getNextStem (Completions : REPLCompletions)
    : option (string * REPLCompletions) :=
  if isEmpty (CompletionInsertableStrings Completions)
  then Some ("", Completions)
  else
    let Idx := to_size_t (CurrentCompletionIdx Completions + 1) in
    let Idx :=
      if (N.of_nat (List.length (CompletionInsertableStrings Completions))
            <=? Idx)%N
      then 0%N else Idx in
    let Completions := setIdx Completions Idx in
    match nth_error (CompletionInsertableStrings Completions)
                    (N.to_nat Idx) with
    | Some Cand =>
        let '(R, Completions) := getRoot Completions in
        Some (substr Cand (String.length R), Completions)
    | None => None
    end.

(** [REPLCompletions::reset()]. *)
Definition reset (Completions : REPLCompletions) : REPLCompletions :=
  mkCompletions Invalid (Prefix Completions) (Root Completions)
                (CompletionStrings Completions)
                (CompletionInsertableStrings Completions)
                (CurrentCompletionIdx Completions).

(** [getNextStem()] called [n] times in a row: the stems it returns, in
    order, and the session it leaves. *)
Fixpoint getNextStems (n : nat) (Completions : REPLCompletions)
    : option (list string * REPLCompletions) :=
  match n with
  | O => Some ([], Completions)
  | S n' =>
      match getNextStem Completions with
      | Some (Stem, Completions) =>
          match getNextStems n' Completions with
          | Some (Stems, Completions) => Some (Stem :: Stems, Completions)
          | None => None
          end
      | None => None
      end
  end.

End Navigation.

(** [REPLCompletions::REPLCompletions()]: the constructor initialises
    [State]; the strings, the optional and the vectors are empty by default,
    and [CurrentCompletionIdx] is whatever it happens to be. *)
Definition newCompletions (Idx : N) : REPLCompletions :=
  mkCompletions Invalid "" None [] [] Idx.

(** The sessions a caller can hold: a new one, or one obtained from such a
    session by a call of the public interface that returns. *)
Inductive reachable {F : Frontend} {A : Arena} : REPLCompletions -> Prop :=
| reach_new : forall Idx, reachable (newCompletions Idx)
| reach_populate : forall C fuel T EnteredCode T' C',
    reachable C -> populate fuel T EnteredCode C = Returns (T', C') ->
    reachable C'
| reach_getRoot : forall C, reachable C -> reachable (snd (getRoot C))
| reach_getPreviousStem : forall C Stem C',
    reachable C -> getPreviousStem C = Some (Stem, C') -> reachable C'
| reach_getNextStem : forall C Stem C',
    reachable C -> getNextStem C = Some (Stem, C') -> reachable C'
| reach_reset : forall C, reachable C -> reachable (reset C).

(** ** Specification vocabulary *)

(** [R] is a prefix of every string of [v]. *)
Definition common_prefix (R : string) (v : list string) : Prop :=
  Forall (fun Cand => startswith Cand R = true) v.

(** [R] is the longest string that is a prefix of every string of [v]. *)
Definition longest_common_prefix (R : string) (v : list string) : Prop :=
  common_prefix R v /\
  forall R', common_prefix R' v -> String.length R' <= String.length R.

(** What the consumer stores for the batches of one pass run with the prefix
    [P]: the display strings and the insertable strings of the results whose
    insertable string starts with [P], the latter without their first
    [P.size()] bytes. *)
Definition accepted (P : string) (Batches : list (list CodeCompletionResult))
    : list CodeCompletionResult :=
  filter (fun R => startswith (toInsertableString R) P) (List.concat Batches).

Definition stored_display (P : string)
    (Batches : list (list CodeCompletionResult)) : list string :=
  map print (accepted P Batches).

Definition stored_insertable (P : string)
    (Batches : list (list CodeCompletionResult)) : list string :=
  map (fun R => substr (toInsertableString R) (String.length P))
      (accepted P Batches).

(** The cursor of a session selects nothing, or one of the stored
    candidates. *)
Definition cursor_ok (Completions : REPLCompletions) : Prop :=
  CompletionInsertableStrings Completions = [] \/
  CurrentCompletionIdx Completions = SIZE_MAX \/
  (CurrentCompletionIdx Completions
   < N.of_nat (List.length (CompletionInsertableStrings Completions)))%N.

(** The collaborators only add declarations, after the existing ones. *)
Definition appends_declarations {F : Frontend} : Prop :=
  (forall (T : TranslationUnit Decl DiagnosticConsumer) B O PS,
     exists extra,
       Decls (fst (fst (parseIntoTranslationUnit T B O PS)))
       = (Decls T ++ extra)%list) /\
  (forall (T : TranslationUnit Decl DiagnosticConsumer) n,
     exists extra, Decls (performTypeChecking T n) = (Decls T ++ extra)%list) /\
  (forall (T : TranslationUnit Decl DiagnosticConsumer) PS O,
     exists extra,
       Decls (fst (performDelayedParsing T PS O)) = (Decls T ++ extra)%list).

(** ** A small front end, to run the session on

    Words are separated by spaces; a word of letters is an identifier
    ([let] is a keyword), any other word is some other token.  The parser
    needs two chunks, adds a declaration with each and raises the error
    flag.  After an identifier the generator offers the results [Postfix];
    elsewhere it offers three names, in two batches. *)
Module Toy.

Definition isLetter (c : ascii) : bool :=
  let n := nat_of_ascii c in
  ((65 <=? n)%nat && (n <=? 90)%nat) || ((97 <=? n)%nat && (n <=? 122)%nat).

Fixpoint allLetters (s : string) : bool :=
  match s with
  | EmptyString => true
  | String c s' => isLetter c && allLetters s'
  end.

Definition word (w : string) (start : N) : list Token :=
  match w with
  | EmptyString => []
  | _ =>
      [mkToken (if String.eqb w "let" then tok.keyword
                else if allLetters w then tok.identifier else tok.other)
               w start]
  end.

Fixpoint lex (s : string) (pos start : N) (w : string) : list Token :=
  match s with
  | EmptyString => word w start
  | String c s' =>
      if Ascii.eqb c zero then word w start
      else if Ascii.eqb c " "
           then word w start ++ lex s' (pos + 1) (pos + 1) ""
           else lex s' (pos + 1) start (w ++ String c "")
  end.

Definition lexer (M : list (string * string)) (BufferID : N) : list Token :=
  match nth_error M (N.to_nat BufferID) with
  | Some (text, _) => lex text 0 0 ""
  | None => []
  end.

Definition name (s : string) : CodeCompletionResult :=
  mkResult [Chunk.mk Text s] ("SwiftDecl: " ++ s).

Definition names : list (list CodeCompletionResult) :=
  [[name "String"; name "StringProtocol"]; [name "Int"]].

Definition afterIdentifier (M : list (string * string)) : bool :=
  match last (map Some (lexer M (N.of_nat (List.length M) - 1))) None with
  | Some T => isIdentifierOrKeyword T
  | None => false
  end.

Definition frontend (Postfix : list (list CodeCompletionResult))
    : Frontend :=
  {| Decl := nat;
     nullDecl := 0;
     DiagnosticConsumer := string;
     PersistentParserState := nat;
     freshParserState := 0;
     parseIntoTranslationUnit T BufferID Offset PersistentState :=
       (mkTU (Kind T) (Decls T ++ [PersistentState])
             (mkContext
                (mkDiags (Consumers (Diags (getASTContext T))) true)
                (SourceMgr (getASTContext T))),
        S PersistentState, (1 <=? PersistentState)%nat);
     performTypeChecking T CurTUElem := T;
     performDelayedParsing T PersistentState Offset :=
       (T, if afterIdentifier (SourceMgr (getASTContext T))
           then Postfix else names);
     tokenize := lexer |}.

(** A generator that offers nothing after an identifier, and one that
    offers a member access there. *)
Definition plain : Frontend := frontend [].
Definition postfix : Frontend :=
  frontend [[mkResult [Chunk.mk Dot "."; Chunk.mk Text "self"]
                      "SwiftDecl: .self"]].

(** A program state with two declarations and one diagnostic consumer. *)
Definition program : TranslationUnit nat string :=
  mkTU TranslationUnit.REPL [10; 11]
       (mkContext (mkDiags ["printer"] false) []).

(** Memory in which a zero byte follows every stored string. *)
Definition zeros : Arena := {| beyond := fun _ _ => zero |}.

(** Memory in which the letter [V] follows every stored string of four
    bytes. *)
Definition stale : Arena :=
  {| beyond := fun _ i => if (i =? 4)%nat then "V"%char else zero |}.

Definition stored (v : list string) : REPLCompletions :=
  mkCompletions CompletedRoot "" None v v SIZE_MAX.

(** The entered code, in the middle of a word and at the start of one. *)
Definition entered : string := "let x = Str".
Definition entered_before : string := "let x = ".

(** The first pass on [entered], with the generator that offers a member
    access after an identifier. *)
Definition first_pass : TranslationUnit nat string * N * REPLCompletions :=
  Eval vm_compute in
    match @doCodeCompletion postfix 2 program entered
                            (clear (newCompletions 0)) with
    | Returns r => r
    | _ => (program, 0%N, newCompletions 0)
    end.

(** The second pass, which starts from the lists the first pass left, and
    the second pass on its own, which starts from empty lists. *)
Definition second_pass : TranslationUnit nat string * N * REPLCompletions :=
  Eval vm_compute in
    match @doCodeCompletion postfix 2 (fst (fst first_pass)) entered_before
                            (setPrefix (clear (newCompletions 0)) "Str") with
    | Returns r => r
    | _ => (program, 0%N, newCompletions 0)
    end.

(** What [populate] returns on [entered], with that generator and with
    the one that offers nothing after an identifier. *)
Definition populated : TranslationUnit nat string * REPLCompletions :=
  Eval vm_compute in
    match @populate postfix 2 program entered (newCompletions 0) with
    | Returns r => r
    | _ => (program, newCompletions 0)
    end.

Definition populated_plain : TranslationUnit nat string * REPLCompletions :=
  Eval vm_compute in
    match @populate plain 2 program entered (newCompletions 0) with
    | Returns r => r
    | _ => (program, newCompletions 0)
    end.

(** What [populate] returns on [entered_before]. *)
Definition populated_before : TranslationUnit nat string * REPLCompletions :=
  Eval vm_compute in
    match @populate plain 2 program entered_before (newCompletions 0) with
    | Returns r => r
    | _ => (program, newCompletions 0)
    end.

(** A program state with 2^32 declarations. *)
Definition crowded : TranslationUnit nat string :=
  mkTU TranslationUnit.REPL (repeat 0 (N.to_nat (2 ^ 32)))
       (mkContext (mkDiags ["printer"] false) []).

(** The same front end with a generator that offers [Names] where the code
    does not end in an identifier, and nothing after an identifier. *)
Definition offering (Names : list (list CodeCompletionResult)) : Frontend :=
  {| Decl := nat;
     nullDecl := 0;
     DiagnosticConsumer := string;
     PersistentParserState := nat;
     freshParserState := 0;
     parseIntoTranslationUnit T BufferID Offset PersistentState :=
       (mkTU (Kind T) (Decls T ++ [PersistentState])
             (mkContext
                (mkDiags (Consumers (Diags (getASTContext T))) true)
                (SourceMgr (getASTContext T))),
        S PersistentState, (1 <=? PersistentState)%nat);
     performTypeChecking T CurTUElem := T;
     performDelayedParsing T PersistentState Offset :=
       (T, if afterIdentifier (SourceMgr (getASTContext T))
           then [] else Names);
     tokenize := lexer |}.

Definition pend_names : list (list CodeCompletionResult) :=
  [[name "pendValue"; name "pend"]].

Definition abc_names : list (list CodeCompletionResult) :=
  [[name "abc"; name "ab"]].

(** What [populate] returns on [entered_before] when the generator offers
    [pendValue] and [pend], and when it offers [abc] and [ab]. *)
Definition populated_pend : TranslationUnit nat string * REPLCompletions :=
  Eval vm_compute in
    match @populate (offering pend_names) 2 program entered_before
                    (newCompletions 0) with
    | Returns r => r
    | _ => (program, newCompletions 0)
    end.

Definition populated_abc : TranslationUnit nat string * REPLCompletions :=
  Eval vm_compute in
    match @populate (offering abc_names) 2 program entered_before
                    (newCompletions 0) with
    | Returns r => r
    | _ => (program, newCompletions 0)
    end.

End Toy.

(** * Properties *)

(** ** Strings *)

Lemma startswith_empty (s : string) : startswith s "" = true.
Proof. destruct s; reflexivity. Qed.

Lemma substr_0 (s : string) : substr s 0 = s.
Proof. reflexivity. Qed.

Lemma startswith_refl (s : string) : startswith s s = true.
Proof.
  induction s as [|c s IH]; simpl; [reflexivity|].
  now rewrite Ascii.eqb_refl, IH.
Qed.

Lemma startswith_app (p t : string) : startswith (p ++ t) p = true.
Proof.
  induction p as [|c p IH]; simpl.
  - apply startswith_empty.
  - now rewrite Ascii.eqb_refl, IH.
Qed.

Lemma substr_app (p t : string) : substr (p ++ t) (String.length p) = t.
Proof. induction p as [|c p IH]; simpl; [reflexivity | exact IH]. Qed.

(** A string that starts with [p] is [p] followed by what [substr] keeps. *)
Lemma startswith_substr (s p : string) :
  startswith s p = true -> s = p ++ substr s (String.length p).
Proof.
  revert s; induction p as [|c p IH]; intros s H; simpl in *.
  - reflexivity.
  - destruct s as [|d s]; [discriminate|].
    apply andb_prop in H as [Hc Hs].
    apply Ascii.eqb_eq in Hc; subst d.
    now rewrite <- (IH s Hs).
Qed.

Lemma startswith_iff (s p : string) :
  startswith s p = true <-> exists t, s = p ++ t.
Proof.
  split.
  - intros H; eexists; now apply startswith_substr.
  - intros [t ->]; apply startswith_app.
Qed.

Lemma length_append (a b : string) :
  String.length (a ++ b) = String.length a + String.length b.
Proof. induction a as [|c a IH]; simpl; [reflexivity | now rewrite IH]. Qed.

Lemma startswith_length (s p : string) :
  startswith s p = true -> String.length p <= String.length s.
Proof.
  intros H; apply startswith_iff in H as [t ->].
  rewrite length_append; lia.
Qed.

Lemma append_empty_r (s : string) : s ++ "" = s.
Proof. induction s as [|c s IH]; simpl; [reflexivity | now rewrite IH]. Qed.

Lemma append_assoc (a b c : string) : (a ++ b) ++ c = a ++ b ++ c.
Proof. induction a as [|x a IH]; simpl; [reflexivity | now rewrite IH]. Qed.

(** ** The insertable string *)

Lemma toInsertableString_loop_spec (Chunks : list Chunk) : forall Str,
  toInsertableString_loop Str Chunks
  = Str ++ fold_right append "" (map Chunk.getText (leading_literals Chunks)).
Proof.
  induction Chunks as [|C Rest IH]; intros Str; simpl.
  - now rewrite append_empty_r.
  - destruct (Chunk.getKind C); simpl;
      solve [ now rewrite IH, append_assoc | now rewrite append_empty_r ].
Qed.

(** [leading_literals] is the longest run of leading chunks of an appended
    kind: the chunk after it, if any, is of another kind. *)
Lemma leading_literals_spec (Chunks : list Chunk) :
  exists Rest,
    Chunks = (leading_literals Chunks ++ Rest)%list /\
    Forall (fun C => appended (Chunk.getKind C) = true)
           (leading_literals Chunks) /\
    match Rest with
    | [] => True
    | C :: _ => appended (Chunk.getKind C) = false
    end.
Proof.
  induction Chunks as [|C Rest IH]; simpl.
  - exists []; repeat split; constructor.
  - destruct (appended (Chunk.getKind C)) eqn:E.
    + destruct IH as (R & H1 & H2 & H3).
      exists R; repeat split; [simpl; now rewrite <- H1 | now constructor | exact H3].
    + exists (C :: Rest); repeat split; [constructor | exact E].
Qed.

Lemma appended_kinds (k : ChunkKind) :
  (appended k = true <->
   In k [Text; LeftParen; RightParen; LeftBracket; RightBracket; Dot; Comma])
  /\
  (appended k = false <->
   In k [CallParameterName; CallParameterNameAnnotation; CallParameterColon;
         CallParameterColonAnnotation; CallParameterType; OptionalBegin;
         CallParameterBegin; TypeAnnotation]).
Proof.
  destruct k; simpl; split; split; intros H; try reflexivity; try discriminate;
    try tauto;
    repeat (destruct H as [H|H]; [discriminate|]); try contradiction.
Qed.

(** C5: the insertable string of a raw result is the concatenation of the
    texts of its leading chunks of kind Text, LeftParen, RightParen,
    LeftBracket, RightBracket, Dot or Comma; the first chunk of a
    call-parameter, optional-begin or type-annotation kind ends it, and the
    result is kept, truncated.  The chunks Text "foo", CallParameterBegin,
    CallParameterName "x" give "foo".  The display string stored for an
    accepted result is all of what the result prints. *)
Theorem toInsertableString_truncates :
  (forall Result : CodeCompletionResult,
     exists Literal Rest : list Chunk,
       getChunks Result = (Literal ++ Rest)%list /\
       Forall (fun C =>
                 In (Chunk.getKind C)
                    [Text; LeftParen; RightParen; LeftBracket; RightBracket;
                     Dot; Comma]) Literal /\
       match Rest with
       | [] => True
       | C :: _ =>
           In (Chunk.getKind C)
              [CallParameterName; CallParameterNameAnnotation;
               CallParameterColon; CallParameterColonAnnotation;
               CallParameterType; OptionalBegin; CallParameterBegin;
               TypeAnnotation]
       end /\
       toInsertableString Result
       = fold_right append "" (map Chunk.getText Literal)) /\
  (forall t display : string,
     toInsertableString
       (mkResult [Chunk.mk Text "foo"; Chunk.mk CallParameterBegin t;
                  Chunk.mk CallParameterName "x"] display)
     = "foo") /\
  (forall (Completions : REPLCompletions) (Result : CodeCompletionResult),
     CompletionStrings (handleResult Completions Result)
     = if startswith (toInsertableString Result) (Prefix Completions)
       then (CompletionStrings Completions ++ [print Result])%list
       else CompletionStrings Completions).
Proof.
  split; [|split].
  - intros Result.
    destruct (leading_literals_spec (getChunks Result)) as (Rest & H1 & H2 & H3).
    exists (leading_literals (getChunks Result)), Rest.
    split; [exact H1|]. split; [|split].
    + eapply Forall_impl; [|exact H2].
      intros C HC; now apply appended_kinds.
    + destruct Rest as [|C Rest']; [exact I | now apply appended_kinds].
    + unfold toInsertableString.
      now rewrite toInsertableString_loop_spec.
  - reflexivity.
  - intros Completions Result; unfold handleResult.
    destruct (startswith _ _); reflexivity.
Qed.

(** ** The consumer *)

Lemma fold_handleResult (Results : list CodeCompletionResult) :
  forall Completions,
    fold_left handleResult Results Completions
    = mkCompletions
        (State Completions) (Prefix Completions) (Root Completions)
        (CompletionStrings Completions
           ++ stored_display (Prefix Completions) [Results])
        (CompletionInsertableStrings Completions
           ++ stored_insertable (Prefix Completions) [Results])
        (CurrentCompletionIdx Completions).
Proof.
  unfold stored_display, stored_insertable, accepted; simpl.
  rewrite app_nil_r.
  induction Results as [|R Results IH]; intros [St P Rt CS CIS Idx]; simpl.
  - now rewrite !app_nil_r.
  - rewrite IH; unfold handleResult; simpl.
    destruct (startswith (toInsertableString R) P); simpl.
    + now rewrite <- !app_assoc.
    + reflexivity.
Qed.

Lemma accepted_cons (P : string) (Results : list CodeCompletionResult)
    (Batches : list (list CodeCompletionResult)) :
  accepted P (Results :: Batches)
  = (accepted P [Results] ++ accepted P Batches)%list.
Proof.
  unfold accepted; simpl. now rewrite app_nil_r, filter_app.
Qed.

(** What the consumer has stored once it was handed [Batches]. *)
Lemma handleResults_batches (Batches : list (list CodeCompletionResult)) :
  forall Completions,
    fold_left handleResults Batches Completions
    = mkCompletions
        (State Completions) (Prefix Completions) (Root Completions)
        (CompletionStrings Completions
           ++ stored_display (Prefix Completions) Batches)
        (CompletionInsertableStrings Completions
           ++ stored_insertable (Prefix Completions) Batches)
        (CurrentCompletionIdx Completions).
Proof.
  induction Batches as [|Results Batches IH]; intros Completions; simpl.
  - destruct Completions; unfold stored_display, stored_insertable, accepted;
      simpl; now rewrite !app_nil_r.
  - rewrite IH. unfold handleResults.
    rewrite fold_handleResult; simpl.
    unfold stored_display, stored_insertable.
    rewrite (accepted_cons _ Results Batches), !map_app, <- !app_assoc.
    reflexivity.
Qed.

(** With the empty prefix the filter keeps every result and strips
    nothing. *)
Lemma stored_insertable_empty (Batches : list (list CodeCompletionResult)) :
  stored_insertable "" Batches = map toInsertableString (List.concat Batches).
Proof.
  unfold stored_insertable, accepted.
  generalize (List.concat Batches) as l.
  induction l as [|R l IH]; simpl in *; [reflexivity|].
  rewrite startswith_empty; simpl. f_equal. exact IH.
Qed.

Lemma stored_display_empty (Batches : list (list CodeCompletionResult)) :
  stored_display "" Batches = map print (List.concat Batches).
Proof.
  unfold stored_display, accepted.
  generalize (List.concat Batches) as l.
  induction l as [|R l IH]; simpl in *; [reflexivity|].
  rewrite startswith_empty; simpl. f_equal. exact IH.
Qed.

(** ** The completion pass *)

Lemma to_unsigned_small (n : N) : (n < 2 ^ 32)%N -> to_unsigned n = n.
Proof. intros H; unfold to_unsigned; now apply N.mod_small. Qed.

Lemma resize_length {X : Type} (v : list X) (n : nat) (null : X) :
  List.length (resize v n null) = n.
Proof.
  unfold resize. rewrite length_app, length_firstn, repeat_length. lia.
Qed.

(** Resizing to the size a vector had before elements were appended to it
    gives that vector back. *)
Lemma resize_app {X : Type} (v extra : list X) (null : X) :
  resize (v ++ extra) (List.length v) null = v.
Proof.
  unfold resize. rewrite firstn_app, firstn_all, Nat.sub_diag, length_app.
  replace (List.length v - (List.length v + List.length extra)) with 0 by lia.
  simpl. now rewrite !app_nil_r.
Qed.

Section Pass.

Context {F : Frontend}.

Local Abbreviation TU := (TranslationUnit Decl DiagnosticConsumer).

Lemma addConsumers_spec (DCs : list DiagnosticConsumer) : forall T : TU,
  fold_left addConsumer DCs T
  = mkTU (Kind T) (Decls T)
         (mkContext
            (mkDiags (Consumers (Diags (getASTContext T)) ++ DCs)
                     (HadAnyError (Diags (getASTContext T))))
            (SourceMgr (getASTContext T))).
Proof.
  induction DCs as [|DC DCs IH]; intros [K D [[Cs E] M]]; simpl.
  - now rewrite app_nil_r.
  - rewrite IH; simpl. now rewrite <- app_assoc.
Qed.

(** What a pass that returns has done: the generator handed some batches
    to the consumer, the declarations were resized to the count read before
    the parse, the detached consumers were attached again after those the
    collaborators left, and the error flag was cleared.  The batches do
    not depend on the session. *)
Lemma doCodeCompletion_inv (fuel : nat) (T : TU) (EnteredCode : string)
    (Completions : REPLCompletions) (T' : TU) (BufferID : N)
    (Completions' : REPLCompletions) :
  doCodeCompletion fuel T EnteredCode Completions
    = Returns (T', BufferID, Completions') ->
  exists (Batches : list (list CodeCompletionResult)) (Td : TU),
    Completions' = fold_left handleResults Batches Completions /\
    (forall C2,
       doCodeCompletion fuel T EnteredCode C2
       = Returns (T', BufferID, fold_left handleResults Batches C2)) /\
    Decls T'
    = resize (Decls Td)
        (N.to_nat (to_unsigned (N.of_nat (List.length (Decls T)))))
        nullDecl /\
    Consumers (Diags (getASTContext T'))
    = (Consumers (Diags (getASTContext Td))
         ++ Consumers (Diags (getASTContext T)))%list /\
    HadAnyError (Diags (getASTContext T')) = false /\
    Kind T' = Kind Td /\
    SourceMgr (getASTContext T') = SourceMgr (getASTContext Td).
Proof.
  unfold doCodeCompletion; simpl.
  destruct (parse_loop _ _ _ _ _ _) as [[Tp PS]| |] eqn:Eloop;
    try discriminate.
  destruct (performDelayedParsing Tp PS _) as [Td Batches] eqn:Edel.
  intros H; injection H as <- <- <-.
  exists Batches, Td.
  split; [reflexivity|]. split; [reflexivity|].
  rewrite addConsumers_spec; simpl. repeat split; reflexivity.
Qed.

Lemma parse_loop_fuel (fuel : nat) :
  forall fuel' (T : TU) B O Cur PS r,
    parse_loop fuel T B O Cur PS = Returns r -> fuel <= fuel' ->
    parse_loop fuel' T B O Cur PS = Returns r.
Proof.
  induction fuel as [|fuel IH]; intros fuel' T B O Cur PS r H Hle; simpl in H.
  - discriminate.
  - destruct fuel' as [|fuel']; [lia|]. simpl.
    destruct (parseIntoTranslationUnit T B O PS) as [[T1 PS1] Done].
    destruct Done; [exact H|].
    apply IH with (fuel' := fuel') in H; [exact H | lia].
Qed.

Lemma parse_loop_never_asserts (fuel : nat) :
  forall (T : TU) B O Cur PS, parse_loop fuel T B O Cur PS <> AssertionFailed.
Proof.
  induction fuel as [|fuel IH]; intros T B O Cur PS; simpl.
  - discriminate.
  - destruct (parseIntoTranslationUnit T B O PS) as [[T1 PS1] Done].
    destruct Done; [discriminate | apply IH].
Qed.

(** A parser that finishes makes the loop return, given enough fuel. *)
Lemma parse_loop_finishes (T : TU) B O Cur PS :
  parse_finishes T B O Cur PS ->
  exists fuel r, parse_loop fuel T B O Cur PS = Returns r.
Proof.
  induction 1 as [T B O Cur PS T1 PS1 E | T B O Cur PS T1 PS1 E _ IH].
  - exists 1; eexists; simpl. rewrite E. reflexivity.
  - destruct IH as (fuel & r & IH).
    exists (S fuel), r; simpl. rewrite E. exact IH.
Qed.

Lemma doCodeCompletion_fuel (fuel fuel' : nat) (T : TU) code C r :
  doCodeCompletion fuel T code C = Returns r -> fuel <= fuel' ->
  doCodeCompletion fuel' T code C = Returns r.
Proof.
  unfold doCodeCompletion; simpl.
  destruct (parse_loop fuel _ _ _ _ _) as [[Tp PS]| |] eqn:Eloop;
    try discriminate.
  intros H Hle.
  now rewrite (parse_loop_fuel _ _ _ _ _ _ _ _ Eloop Hle).
Qed.

(** With a parser that always finishes, a pass returns. *)
Lemma doCodeCompletion_returns (T : TU) code C :
  (forall T B O Cur PS, parse_finishes T B O Cur PS) ->
  exists fuel r, doCodeCompletion fuel T code C = Returns r.
Proof.
  intros Hfin. unfold doCodeCompletion; simpl.
  match goal with
  | |- context [parse_loop _ ?T0 ?B ?O ?Cur ?PS] =>
      destruct (parse_loop_finishes T0 B O Cur PS (Hfin _ _ _ _ _))
        as (fuel & [Tp PS'] & E)
  end.
  exists fuel. rewrite E.
  destruct (performDelayedParsing Tp PS' _) as [Td Batches].
  eexists; reflexivity.
Qed.

End Pass.

(** ** [populate] *)

Section Populate.

Context {F : Frontend}.

Local Abbreviation TU := (TranslationUnit Decl DiagnosticConsumer).

(** The two ways in which [populate] returns: after one pass, when the
    buffer has no token or its last token is neither an identifier nor a
    keyword, and after two passes otherwise. *)
Lemma populate_inv (fuel : nat) (T : TU) (EnteredCode : string)
    (Completions : REPLCompletions) (T' : TU) (Completions' : REPLCompletions) :
  populate fuel T EnteredCode Completions = Returns (T', Completions') ->
  Kind T = TranslationUnit.REPL /\
  exists T1 B1 C1,
    doCodeCompletion fuel T EnteredCode (clear Completions)
      = Returns (T1, B1, C1) /\
    ((match last (map Some (tokenize (SourceMgr (getASTContext T1)) B1))
                 None with
      | Some LastToken => isIdentifierOrKeyword LastToken = false
      | None => True
      end /\ T' = T1 /\ Completions' = classify C1)
     \/
     (exists LastToken B2 C2,
        last (map Some (tokenize (SourceMgr (getASTContext T1)) B1)) None
          = Some LastToken /\
        isIdentifierOrKeyword LastToken = true /\
        doCodeCompletion fuel T1
          (truncate EnteredCode (N.to_nat (to_unsigned (getLoc LastToken))))
          (setPrefix C1 (getText LastToken))
          = Returns (T', B2, C2) /\
        Completions' = classify C2)).
Proof.
  unfold populate.
  destruct (Kind T); [|discriminate].
  destruct (doCodeCompletion fuel T EnteredCode (clear Completions))
    as [[[T1 B1] C1]| |] eqn:E1; try discriminate.
  intros H. split; [reflexivity|]. exists T1, B1, C1. split; [reflexivity|].
  destruct (last _ None) as [LastToken|] eqn:Elast.
  - destruct (isIdentifierOrKeyword LastToken) eqn:Eid.
    + destruct (doCodeCompletion fuel T1 _ _) as [[[T2 B2] C2]| |] eqn:E2;
        try discriminate.
      injection H as <- <-.
      right. exists LastToken, B2, C2. repeat split; assumption.
    + injection H as <- <-. left. repeat split; assumption.
  - injection H as <- <-. left. repeat split.
Qed.

Lemma populate_not_REPL (fuel : nat) (T : TU) code C :
  Kind T = TranslationUnit.NotREPL ->
  populate fuel T code C = AssertionFailed.
Proof. intros H; unfold populate; now rewrite H. Qed.

(** With a parser that always finishes, [populate] returns on every
    program state of the REPL kind. *)
Lemma populate_returns (T : TU) code C :
  Kind T = TranslationUnit.REPL ->
  (forall T B O Cur PS, parse_finishes T B O Cur PS) ->
  exists fuel r, populate fuel T code C = Returns r.
Proof.
  intros HK Hfin.
  destruct (doCodeCompletion_returns T code (clear C) Hfin)
    as (f1 & [[T1 B1] C1] & E1).
  destruct (last (map Some (tokenize (SourceMgr (getASTContext T1)) B1)) None)
    as [LastToken|] eqn:Elast.
  - destruct (isIdentifierOrKeyword LastToken) eqn:Eid.
    + destruct (doCodeCompletion_returns T1
                  (truncate code (N.to_nat (to_unsigned (getLoc LastToken))))
                  (setPrefix C1 (getText LastToken)) Hfin)
        as (f2 & [[T2 B2] C2] & E2).
      exists (Nat.max f1 f2). unfold populate. rewrite HK.
      rewrite (doCodeCompletion_fuel f1 (Nat.max f1 f2) _ _ _ _ E1)
        by apply Nat.le_max_l.
      rewrite Elast, Eid.
      rewrite (doCodeCompletion_fuel f2 (Nat.max f1 f2) _ _ _ _ E2)
        by apply Nat.le_max_r.
      eexists; reflexivity.
    + exists f1. unfold populate. rewrite HK, E1, Elast, Eid.
      eexists; reflexivity.
  - exists f1. unfold populate. rewrite HK, E1, Elast.
    eexists; reflexivity.
Qed.

(** What one pass leaves of the program state. *)
Lemma doCodeCompletion_restores (fuel : nat) (T : TU) code C T' B C' :
  (N.of_nat (List.length (Decls T)) < 2 ^ 32)%N ->
  doCodeCompletion fuel T code C = Returns (T', B, C') ->
  List.length (Decls T') = List.length (Decls T) /\
  (exists Left,
      Consumers (Diags (getASTContext T'))
      = (Left ++ Consumers (Diags (getASTContext T)))%list) /\
  HadAnyError (Diags (getASTContext T')) = false.
Proof.
  intros Hlt H.
  apply doCodeCompletion_inv in H
    as (Batches & Td & _ & _ & HD & HC & HE & _).
  split; [|split].
  - rewrite HD, resize_length, to_unsigned_small by exact Hlt.
    apply Nat2N.id.
  - eexists; exact HC.
  - exact HE.
Qed.

Lemma classify_fields (C : REPLCompletions) :
  Prefix (classify C) = Prefix C /\
  Root (classify C) = Root C /\
  CompletionStrings (classify C) = CompletionStrings C /\
  CompletionInsertableStrings (classify C) = CompletionInsertableStrings C /\
  CurrentCompletionIdx (classify C) = CurrentCompletionIdx C.
Proof. repeat split. Qed.

Lemma populate_classifies (fuel : nat) (T : TU) code C T' C' :
  populate fuel T code C = Returns (T', C') -> exists C2, C' = classify C2.
Proof.
  intros H. apply populate_inv in H as (_ & T1 & B1 & C1 & _ & H).
  destruct H as [(_ & _ & ->) | (tk & B2 & C2 & _ & _ & _ & ->)];
    eexists; reflexivity.
Qed.

(** C6: when [populate] returns, the state is [Empty] exactly when no
    candidate is stored, [Unique] exactly when one is, and [CompletedRoot]
    exactly when two or more are. *)
Theorem populate_state (fuel : nat) (T : TU) (EnteredCode : string)
    (Completions : REPLCompletions) (T' : TU)
    (Completions' : REPLCompletions) :
  populate fuel T EnteredCode Completions = Returns (T', Completions') ->
  (State Completions' = Empty
   <-> CompletionInsertableStrings Completions' = []) /\
  (State Completions' = Unique
   <-> List.length (CompletionInsertableStrings Completions') = 1) /\
  (State Completions' = CompletedRoot
   <-> 2 <= List.length (CompletionInsertableStrings Completions')) /\
  State Completions' <> Invalid.
Proof.
  intros H. apply populate_classifies in H as [C2 ->].
  unfold classify; simpl.
  destruct (CompletionInsertableStrings C2) as [|a [|b l]]; simpl;
    repeat split; intros H; try discriminate; try reflexivity; try lia.
Qed.

End Populate.

(** ** Speculative declarations

    With collaborators that only add declarations, after the existing ones,
    the declarations a pass added are the ones the resize removes, and the
    declaration list is, element for element, what it was. *)

Section Speculative.

Context {F : Frontend}.

Local Abbreviation TU := (TranslationUnit Decl DiagnosticConsumer).

Hypothesis parse_appends : forall (T : TU) B O PS,
  exists extra,
    Decls (fst (fst (parseIntoTranslationUnit T B O PS)))
    = (Decls T ++ extra)%list.

Hypothesis check_appends : forall (T : TU) n,
  exists extra, Decls (performTypeChecking T n) = (Decls T ++ extra)%list.

Hypothesis delayed_appends : forall (T : TU) PS O,
  exists extra,
    Decls (fst (performDelayedParsing T PS O)) = (Decls T ++ extra)%list.

Lemma parse_loop_appends (fuel : nat) :
  forall (T : TU) B O Cur PS Tp PS',
    parse_loop fuel T B O Cur PS = Returns (Tp, PS') ->
    exists extra, Decls Tp = (Decls T ++ extra)%list.
Proof.
  induction fuel as [|fuel IH]; intros T B O Cur PS Tp PS' H; simpl in H.
  - discriminate.
  - destruct (parse_appends T B O PS) as [e1 H1].
    destruct (parseIntoTranslationUnit T B O PS) as [[T1 PS1] Done].
    simpl in H1.
    destruct (check_appends T1 Cur) as [e2 H2].
    destruct Done.
    + injection H as <- _. exists (e1 ++ e2)%list.
      now rewrite H2, H1, app_assoc.
    + apply IH in H as [e3 H3]. exists (e1 ++ e2 ++ e3)%list.
      now rewrite H3, H2, H1, !app_assoc.
Qed.

Lemma doCodeCompletion_removes (fuel : nat) (T : TU) code C T' B C' :
  (N.of_nat (List.length (Decls T)) < 2 ^ 32)%N ->
  doCodeCompletion fuel T code C = Returns (T', B, C') ->
  Decls T' = Decls T.
Proof.
  intros Hlt. unfold doCodeCompletion; simpl.
  destruct (parse_loop _ _ _ _ _ _) as [[Tp PS]| |] eqn:Eloop;
    try discriminate.
  apply parse_loop_appends in Eloop as [e1 H1]. simpl in H1.
  destruct (delayed_appends Tp PS
              (to_unsigned
                 (N.of_nat (String.length (code ++ String zero "")) - 1)))
    as [e2 H2].
  destruct (performDelayedParsing Tp PS _) as [Td Batches].
  simpl in H2. intros H; injection H as <- _ _.
  rewrite addConsumers_spec; simpl.
  rewrite H2, H1, <- app_assoc, to_unsigned_small, Nat2N.id by exact Hlt.
  apply resize_app.
Qed.

Lemma populate_removes_speculative_declarations (fuel : nat) (T : TU) code
    C T' C' :
  (N.of_nat (List.length (Decls T)) < 2 ^ 32)%N ->
  populate fuel T code C = Returns (T', C') ->
  Decls T' = Decls T.
Proof.
  intros Hlt H.
  apply populate_inv in H as (_ & T1 & B1 & C1 & E1 & H).
  apply doCodeCompletion_removes in E1; [|exact Hlt].
  destruct H as [(_ & -> & _) | (tk & B2 & C2 & _ & _ & E2 & _)].
  - exact E1.
  - apply doCodeCompletion_removes in E2; [congruence | now rewrite E1].
Qed.

End Speculative.

(** ** What a pass restores *)

Section Restores.

Context {F : Frontend}.

Local Abbreviation TU := (TranslationUnit Decl DiagnosticConsumer).

(** What [populate] leaves of the program state, whatever the collaborators
    do. *)
Lemma populate_restores (fuel : nat) (T : TU) code C T' C' :
  (N.of_nat (List.length (Decls T)) < 2 ^ 32)%N ->
  populate fuel T code C = Returns (T', C') ->
  List.length (Decls T') = List.length (Decls T) /\
  (exists Left,
      Consumers (Diags (getASTContext T'))
      = (Left ++ Consumers (Diags (getASTContext T)))%list) /\
  HadAnyError (Diags (getASTContext T')) = false.
Proof.
  intros Hlt H.
  apply populate_inv in H as (_ & T1 & B1 & C1 & E1 & H).
  pose proof (doCodeCompletion_restores _ _ _ _ _ _ _ Hlt E1)
    as (HD1 & (L1 & HC1) & HE1).
  destruct H as [(_ & -> & _) | (tk & B2 & C2 & _ & _ & E2 & _)].
  - repeat split; [exact HD1 | now exists L1 | exact HE1].
  - assert (Hlt1 : (N.of_nat (List.length (Decls T1)) < 2 ^ 32)%N)
      by now rewrite HD1.
    pose proof (doCodeCompletion_restores _ _ _ _ _ _ _ Hlt1 E2)
      as (HD2 & (L2 & HC2) & HE2).
    split; [congruence|]. split; [|exact HE2].
    exists (L2 ++ L1)%list. now rewrite HC2, HC1, app_assoc.
Qed.

(** The declaration count is read into an [unsigned]: when it is a multiple
    of 2^32 the resize at the end of a pass leaves no declaration. *)
Lemma doCodeCompletion_wraps (fuel : nat) (T : TU) code C T' B C' :
  to_unsigned (N.of_nat (List.length (Decls T))) = 0%N ->
  doCodeCompletion fuel T code C = Returns (T', B, C') ->
  Decls T' = [].
Proof.
  intros H0 H.
  apply doCodeCompletion_inv in H as (Batches & Td & _ & _ & HD & _).
  rewrite HD, H0. reflexivity.
Qed.

Lemma populate_wraps (fuel : nat) (T : TU) code C T' C' :
  to_unsigned (N.of_nat (List.length (Decls T))) = 0%N ->
  populate fuel T code C = Returns (T', C') ->
  Decls T' = [].
Proof.
  intros H0 H.
  apply populate_inv in H as (_ & T1 & B1 & C1 & E1 & H).
  apply doCodeCompletion_wraps in E1; [|exact H0].
  destruct H as [(_ & -> & _) | (tk & B2 & C2 & _ & _ & E2 & _)].
  - exact E1.
  - apply doCodeCompletion_wraps in E2; [exact E2 | now rewrite E1].
Qed.

(** C2, as the code has it: on a program state with fewer than 2^32
    declarations, every completion pass that returns, and every call of
    [populate] that returns, leaves the program state with as many
    declarations as it had before; with collaborators that only add
    declarations, after the existing ones, the declaration list is what it
    was, element for element: the speculative declarations are removed.
    Every diagnostic consumer that was attached before is attached again, in
    their order, after any consumer the collaborators attached meanwhile,
    and the had-any-error flag is cleared. *)
Theorem populate_restores_program_state :
  (forall (fuel : nat) (T : TU) (EnteredCode : string)
          (Completions : REPLCompletions) (T' : TU) (BufferID : N)
          (Completions' : REPLCompletions),
     (N.of_nat (List.length (Decls T)) < 2 ^ 32)%N ->
     doCodeCompletion fuel T EnteredCode Completions
       = Returns (T', BufferID, Completions') ->
     List.length (Decls T') = List.length (Decls T) /\
     (appends_declarations -> Decls T' = Decls T) /\
     (exists Left,
         Consumers (Diags (getASTContext T'))
         = (Left ++ Consumers (Diags (getASTContext T)))%list) /\
     HadAnyError (Diags (getASTContext T')) = false) /\
  (forall (fuel : nat) (T : TU) (EnteredCode : string)
          (Completions : REPLCompletions) (T' : TU)
          (Completions' : REPLCompletions),
     (N.of_nat (List.length (Decls T)) < 2 ^ 32)%N ->
     populate fuel T EnteredCode Completions = Returns (T', Completions') ->
     List.length (Decls T') = List.length (Decls T) /\
     (appends_declarations -> Decls T' = Decls T) /\
     (exists Left,
         Consumers (Diags (getASTContext T'))
         = (Left ++ Consumers (Diags (getASTContext T)))%list) /\
     HadAnyError (Diags (getASTContext T')) = false).
Proof.
  split.
  - intros fuel T code C T' B C' Hlt H.
    pose proof (doCodeCompletion_restores _ _ _ _ _ _ _ Hlt H)
      as (HD & HC & HE).
    split; [exact HD|]. split; [|split; assumption].
    intros (H1 & H2 & H3).
    exact (doCodeCompletion_removes H1 H2 H3 _ _ _ _ _ _ _ Hlt H).
  - intros fuel T code C T' C' Hlt H.
    pose proof (populate_restores _ _ _ _ _ _ Hlt H) as (HD & HC & HE).
    split; [exact HD|]. split; [|split; assumption].
    intros (H1 & H2 & H3).
    exact (populate_removes_speculative_declarations H1 H2 H3
             _ _ _ _ _ _ Hlt H).
Qed.

End Restores.

(** ** The candidates [populate] stores *)

Section Candidates.

Context {F : Frontend}.

Local Abbreviation TU := (TranslationUnit Decl DiagnosticConsumer).

(** The lists of a session that [populate] returns, in terms of the
    batches the generator handed over in the first pass and, when there is
    one, in the second pass. *)
Lemma populate_lists (fuel : nat) (T : TU) (EnteredCode : string)
    (Completions : REPLCompletions) (T' : TU)
    (Completions' : REPLCompletions) :
  populate fuel T EnteredCode Completions = Returns (T', Completions') ->
  exists T1 B1 Batches1,
    (forall C0,
       doCodeCompletion fuel T EnteredCode C0
       = Returns (T1, B1, fold_left handleResults Batches1 C0)) /\
    ((T' = T1 /\
      match last (map Some (tokenize (SourceMgr (getASTContext T1)) B1))
                 None with
      | Some LastToken => isIdentifierOrKeyword LastToken = false
      | None => True
      end /\
      Prefix Completions' = "" /\
      CompletionInsertableStrings Completions'
      = stored_insertable "" Batches1 /\
      CompletionStrings Completions' = stored_display "" Batches1)
     \/
     (exists LastToken B2 Batches2,
        last (map Some (tokenize (SourceMgr (getASTContext T1)) B1)) None
          = Some LastToken /\
        isIdentifierOrKeyword LastToken = true /\
        (forall C0,
           doCodeCompletion fuel T1
             (truncate EnteredCode
                       (N.to_nat (to_unsigned (getLoc LastToken)))) C0
           = Returns (T', B2, fold_left handleResults Batches2 C0)) /\
        Prefix Completions' = getText LastToken /\
        CompletionInsertableStrings Completions'
        = (stored_insertable "" Batches1
             ++ stored_insertable (getText LastToken) Batches2)%list /\
        CompletionStrings Completions'
        = (stored_display "" Batches1
             ++ stored_display (getText LastToken) Batches2)%list)).
Proof.
  intros H. apply populate_inv in H as (_ & T1 & B1 & C1 & E1 & H).
  apply doCodeCompletion_inv in E1 as (Batches1 & _ & -> & E1 & _).
  exists T1, B1, Batches1. split; [exact E1|].
  rewrite handleResults_batches in H. simpl in H.
  destruct H as [(Hlast & -> & ->) | (tk & B2 & C2 & Hlast & Hid & E2 & ->)].
  - left. repeat split; assumption.
  - right.
    apply doCodeCompletion_inv in E2 as (Batches2 & _ & -> & E2 & _).
    exists tk, B2, Batches2.
    rewrite handleResults_batches. simpl.
    repeat split; assumption.
Qed.

(** C1, as the code has it: when the last token of the augmented buffer
    is an identifier or a keyword after the first pass, [populate] sets the
    prefix to the text of that token and runs the pass again on the source
    truncated at the start offset of that token (taken as an [unsigned]);
    the candidate lists it returns with are the first pass's output, every
    result of which was stored with the empty prefix, followed by the
    second pass's output, filtered by the prefix and stripped of it. *)
Theorem populate_two_passes (fuel : nat) (T : TU) (EnteredCode : string)
    (Completions : REPLCompletions) (T' : TU)
    (Completions' : REPLCompletions) (T1 : TU) (B1 : N)
    (C1 : REPLCompletions) (LastToken : Token) :
  populate fuel T EnteredCode Completions = Returns (T', Completions') ->
  doCodeCompletion fuel T EnteredCode (clear Completions)
    = Returns (T1, B1, C1) ->
  last (map Some (tokenize (SourceMgr (getASTContext T1)) B1)) None
    = Some LastToken ->
  isIdentifierOrKeyword LastToken = true ->
  Prefix Completions' = getText LastToken /\
  exists B2 C2 Batches1 Batches2,
    doCodeCompletion fuel T1
      (truncate EnteredCode (N.to_nat (to_unsigned (getLoc LastToken))))
      (setPrefix (clear Completions) (getText LastToken))
      = Returns (T', B2, C2) /\
    C1 = fold_left handleResults Batches1 (clear Completions) /\
    C2 = fold_left handleResults Batches2
           (setPrefix (clear Completions) (getText LastToken)) /\
    CompletionInsertableStrings C1
      = map toInsertableString (List.concat Batches1) /\
    CompletionStrings C1 = map print (List.concat Batches1) /\
    CompletionInsertableStrings C2
      = stored_insertable (getText LastToken) Batches2 /\
    CompletionStrings C2 = stored_display (getText LastToken) Batches2 /\
    CompletionInsertableStrings Completions'
      = (CompletionInsertableStrings C1
           ++ CompletionInsertableStrings C2)%list /\
    CompletionStrings Completions'
      = (CompletionStrings C1 ++ CompletionStrings C2)%list.
Proof.
  intros H E1 Hlast Hid.
  apply populate_lists in H as (T1' & B1' & Batches1 & E1' & H).
  rewrite E1' in E1. injection E1 as -> -> <-.
  destruct H as [(_ & Hno & _) | (tk & B2 & Batches2 & Hlast' & _ & E2 & HP & HI & HS)].
  - rewrite Hlast in Hno. congruence.
  - rewrite Hlast in Hlast'. injection Hlast' as <-.
    split; [exact HP|].
    exists B2,
      (fold_left handleResults Batches2
         (setPrefix (clear Completions) (getText LastToken))),
      Batches1, Batches2.
    rewrite !handleResults_batches; simpl.
    rewrite stored_insertable_empty, stored_display_empty in *.
    repeat split; try assumption.
    rewrite E2, handleResults_batches. reflexivity.
Qed.

(** C3, as the code has it: when [populate] returns, the stored entries
    are, in order, all the results the generator handed over in the first
    pass, which ran with the empty prefix, stored unstripped, and then the
    results of the second pass, if there was one, that passed the filter of
    the prefix the session holds.  For these the insertable text of the
    result starts with that prefix (the filter comes before the insertion)
    and the stored text is that text without its first bytes, as many as
    the prefix has; the display string stored with an entry is what its
    result prints.  When the session holds the empty prefix, or the first
    pass offered nothing, every stored entry comes from a result whose
    insertable text starts with the prefix the session holds. *)
Theorem populate_prefix_filter (fuel : nat) (T : TU) (EnteredCode : string)
    (Completions : REPLCompletions) (T' : TU)
    (Completions' : REPLCompletions) :
  populate fuel T EnteredCode Completions = Returns (T', Completions') ->
  exists T1 B1 Batches1 Batches2,
    (forall C0,
       doCodeCompletion fuel T EnteredCode C0
       = Returns (T1, B1, fold_left handleResults Batches1 C0)) /\
    ((Batches2 = [] /\ Prefix Completions' = "") \/
     (exists LastToken B2,
        last (map Some (tokenize (SourceMgr (getASTContext T1)) B1)) None
          = Some LastToken /\
        Prefix Completions' = getText LastToken /\
        forall C0,
          doCodeCompletion fuel T1
            (truncate EnteredCode
                      (N.to_nat (to_unsigned (getLoc LastToken)))) C0
          = Returns (T', B2, fold_left handleResults Batches2 C0))) /\
    CompletionInsertableStrings Completions'
    = (map toInsertableString (List.concat Batches1)
         ++ map (fun R => substr (toInsertableString R)
                                 (String.length (Prefix Completions')))
                (accepted (Prefix Completions') Batches2))%list /\
    CompletionStrings Completions'
    = (map print (List.concat Batches1)
         ++ map print (accepted (Prefix Completions') Batches2))%list /\
    Forall (fun R =>
              startswith (toInsertableString R) (Prefix Completions') = true
              /\ toInsertableString R
                 = Prefix Completions'
                     ++ substr (toInsertableString R)
                               (String.length (Prefix Completions')))
           (accepted (Prefix Completions') Batches2) /\
    (Prefix Completions' = "" \/ List.concat Batches1 = [] ->
     Forall (fun R =>
               startswith (toInsertableString R) (Prefix Completions') = true)
            (List.concat Batches1 ++ accepted (Prefix Completions') Batches2)).
Proof.
  intros H.
  apply populate_lists in H as (T1 & B1 & Batches1 & E1 & H).
  assert (Hacc : forall P Batches,
             Forall (fun R =>
                       startswith (toInsertableString R) P = true /\
                       toInsertableString R
                       = P ++ substr (toInsertableString R) (String.length P))
                    (accepted P Batches)).
  { intros P Batches. apply Forall_forall. intros R HR.
    apply filter_In in HR as [_ HR].
    split; [exact HR | now apply startswith_substr]. }
  assert (Hall : forall P (l1 l2 : list CodeCompletionResult),
             P = "" \/ l1 = [] ->
             Forall (fun R => startswith (toInsertableString R) P = true) l2 ->
             Forall (fun R => startswith (toInsertableString R) P = true)
                    (l1 ++ l2)).
  { intros P l1 l2 [-> | ->] H2; [|exact H2].
    apply Forall_forall. intros R _. apply startswith_empty. }
  destruct H as [(_ & _ & HP & HI & HS)
                | (tk & B2 & Batches2 & Hlast & _ & E2 & HP & HI & HS)].
  - exists T1, B1, Batches1, [].
    rewrite HP, HI, HS, stored_insertable_empty, stored_display_empty.
    unfold accepted; simpl. rewrite !app_nil_r.
    split; [exact E1|].
    split; [left; split; reflexivity|].
    split; [reflexivity|]. split; [reflexivity|]. split; [constructor|].
    intros _. apply Forall_forall. intros R _. apply startswith_empty.
  - exists T1, B1, Batches1, Batches2.
    rewrite HP, HI, HS, stored_insertable_empty, stored_display_empty.
    split; [exact E1|].
    split; [right; exists tk, B2; repeat split; assumption|].
    split; [reflexivity|]. split; [reflexivity|]. split; [apply Hacc|].
    intros E. apply Hall; [exact E|].
    eapply Forall_impl; [|apply (Hacc (getText tk) Batches2)].
    now intros R [HR _].
Qed.

End Candidates.

(** ** The root *)

Lemma startswith_trans (a b c : string) :
  startswith a b = true -> startswith b c = true -> startswith a c = true.
Proof.
  intros H1 H2. apply startswith_iff in H1 as [t ->].
  apply startswith_iff in H2 as [u ->].
  rewrite append_assoc. apply startswith_app.
Qed.

Lemma startswith_truncate (s : string) (m : nat) :
  startswith s (truncate s m) = true.
Proof.
  revert s; induction m as [|m IH]; intros [|c s]; simpl; try reflexivity.
  now rewrite Ascii.eqb_refl, IH.
Qed.

Lemma truncate_startswith (s r : string) (m : nat) :
  startswith s r = true -> String.length r <= m ->
  startswith (truncate s m) r = true.
Proof.
  revert s m; induction r as [|e r IH]; intros s m H Hle.
  - apply startswith_empty.
  - destruct s as [|c s]; [discriminate|].
    destruct m as [|m]; [simpl in Hle; lia|].
    simpl in *. apply andb_prop in H as [-> H]. simpl.
    apply IH; [exact H | lia].
Qed.

Lemma get_app_length (pre rest : string) :
  String.get (String.length pre) (pre ++ rest) = String.get 0 rest.
Proof. induction pre as [|c pre IH]; simpl; [reflexivity | exact IH]. Qed.

Section RootProperties.

Context {A : Arena}.

Lemma getRoot_fields (C : REPLCompletions) :
  State (snd (getRoot C)) = State C /\
  Prefix (snd (getRoot C)) = Prefix C /\
  Root (snd (getRoot C)) = Some (fst (getRoot C)) /\
  CompletionStrings (snd (getRoot C)) = CompletionStrings C /\
  CompletionInsertableStrings (snd (getRoot C))
    = CompletionInsertableStrings C /\
  CurrentCompletionIdx (snd (getRoot C)) = CurrentCompletionIdx C.
Proof.
  destruct C as [St P [R|] CS [|S0 CIS] Idx]; simpl; now repeat split.
Qed.

(** The root is computed once: a second call returns the cached value and
    leaves the session as it is. *)
Lemma getRoot_cached (C : REPLCompletions) :
  getRoot (snd (getRoot C)) = (fst (getRoot C), snd (getRoot C)).
Proof.
  pose proof (getRoot_fields C) as (_ & _ & H & _).
  unfold getRoot at 1. now rewrite H.
Qed.

Lemma getRoot_no_candidates (C : REPLCompletions) :
  Root C = None -> CompletionInsertableStrings C = [] ->
  fst (getRoot C) = "".
Proof. intros H1 H2. unfold getRoot. now rewrite H1, H2. Qed.

(** One scan that stays inside the candidate: it stops at the length of
    the longest common prefix of what is left of [RootStr] and of the
    candidate. *)
Lemma mismatch_in_bounds (k : nat) (R : string) : forall pre rest : string,
  Forall (fun j => j < String.length (pre ++ rest))
         (mismatch_reads R k (pre ++ rest) (String.length pre)) ->
  exists m,
    mismatch R k (pre ++ rest) (String.length pre) = String.length pre + m /\
    String.length (truncate R m) = m /\
    startswith rest (truncate R m) = true /\
    forall r, startswith R r = true -> startswith rest r = true ->
              String.length r <= m.
Proof.
  induction R as [|c R IH]; intros pre rest Hb; simpl in *.
  - exists 0. repeat split; [lia | apply startswith_empty |].
    intros [|e r] H _; [simpl; lia | discriminate].
  - apply Forall_inv in Hb as Hhd. apply Forall_inv_tail in Hb.
    unfold deref in *. rewrite get_app_length in *.
    destruct rest as [|d rest].
    { rewrite length_append in Hhd. simpl in Hhd. lia. }
    simpl in *. destruct (Ascii.eqb c d) eqn:Ecd.
    + apply Ascii.eqb_eq in Ecd; subst d.
      assert (Hlen : String.length (pre ++ String c "")
                     = S (String.length pre))
        by (rewrite length_append; simpl; lia).
      specialize (IH (pre ++ String c "") rest).
      rewrite append_assoc in IH. simpl in IH. rewrite Hlen in IH.
      destruct (IH Hb) as (m & Hm & Hl & Hs & Hmax).
      exists (S m). simpl. rewrite Ascii.eqb_refl, Hs, Hl, Hm.
      repeat split; [lia|].
      intros [|e r] H1 H2; simpl in *; [lia|].
      apply andb_prop in H1 as [_ H1]. apply andb_prop in H2 as [_ H2].
      specialize (Hmax r H1 H2). lia.
    + exists 0. simpl. repeat split; [lia|].
      intros [|e r] H1 H2; simpl in *; [lia|].
      apply andb_prop in H1 as [H1 _]. apply andb_prop in H2 as [H2 _].
      apply Ascii.eqb_eq in H1, H2. subst. now rewrite Ascii.eqb_refl in Ecd.
Qed.

(** The loop of [getRoot], when every comparison stays inside both
    strings: it leaves the longest common prefix of [RootStr] and of the
    strings it went through. *)
Lemma getRoot_loop_in_bounds (Rest : list string) : forall RootStr k,
  Forall in_bounds (getRoot_loop_reads RootStr k Rest) ->
  startswith RootStr (getRoot_loop RootStr k Rest) = true /\
  common_prefix (getRoot_loop RootStr k Rest) Rest /\
  forall r, startswith RootStr r = true -> common_prefix r Rest ->
            String.length r <= String.length (getRoot_loop RootStr k Rest).
Proof.
  induction Rest as [|Cand Rest IH]; intros RootStr k Hb; simpl in *.
  - split; [apply startswith_refl|]. split; [constructor|].
    intros r H _. now apply startswith_length.
  - apply Forall_app in Hb as [Hb1 Hb2].
    assert (Hb1' : Forall (fun j => j < String.length ("" ++ Cand))
                          (mismatch_reads RootStr k ("" ++ Cand)
                                          (String.length ""))).
    { simpl. apply Forall_forall. intros j Hj.
      rewrite Forall_forall in Hb1.
      specialize (Hb1 _ (in_map _ _ _ Hj)). apply Hb1. }
    apply mismatch_in_bounds in Hb1' as (m & Hm & Hl & Hs & Hmax).
    simpl in Hm. rewrite Hm in *.
    destruct (IH _ _ Hb2) as (H1 & H2 & H3).
    split; [|split].
    + eapply startswith_trans; [apply startswith_truncate | exact H1].
    + constructor; [|exact H2].
      eapply startswith_trans; [exact Hs | exact H1].
    + intros r Hr Hc. apply Forall_inv in Hc as Hhd.
      apply Forall_inv_tail in Hc.
      apply H3; [|exact Hc].
      apply truncate_startswith; [exact Hr | now apply Hmax].
Qed.

(** When no comparison of [getRoot] leaves the strings it compares, the
    root is the longest string that is a prefix of every stored insertable
    string. *)
Lemma getRoot_in_bounds (C : REPLCompletions) :
  Root C = None -> CompletionInsertableStrings C <> [] ->
  Forall in_bounds (getRoot_reads C) ->
  longest_common_prefix (fst (getRoot C)) (CompletionInsertableStrings C).
Proof.
  unfold getRoot, getRoot_reads. intros -> Hne Hb.
  destruct (CompletionInsertableStrings C) as [|S0 Rest] eqn:E;
    [contradiction|].
  simpl fst. apply getRoot_loop_in_bounds in Hb as (H1 & H2 & H3).
  split; [exact H2|].
  intros r Hr. apply H3; [|exact Hr]. now apply Forall_inv in Hr.
Qed.

End RootProperties.

(** C4 does not hold of the code: [getRoot] is meant to return the longest
    string that is a prefix of every stored insertable string, "pend" for
    the candidates "pendValue" and "pend", but its scan of "pend" goes on
    past the end of that string, and with the letter V in the byte that
    follows it in memory the root is "pendV", which is not a prefix of
    "pend". *)
Theorem getRoot_not_common_prefix :
  fst (@getRoot Toy.stale (Toy.stored ["pendValue"; "pend"])) = "pendV" /\
  ~ common_prefix "pendV" ["pendValue"; "pend"] /\
  longest_common_prefix "pend" ["pendValue"; "pend"] /\
  In (mkComparison 1 4 9 4)
     (@getRoot_reads Toy.stale (Toy.stored ["pendValue"; "pend"])).
Proof.
  split; [reflexivity|]. split; [|split].
  - intros H. apply Forall_inv_tail in H. apply Forall_inv in H. discriminate.
  - split.
    + repeat constructor.
    + intros r H. apply Forall_inv_tail in H. apply Forall_inv in H.
      now apply startswith_length in H.
  - vm_compute. tauto.
Qed.

Section Overread.

Context {A : Arena}.

(** A candidate that is a proper prefix of [RootStr] is read at the offset
    of its end, whatever the memory holds. *)
Lemma mismatch_reads_proper_prefix (k : nat) (rest : string) :
  forall (pre : string) (c : ascii) (t : string),
    In (String.length (pre ++ rest))
       (mismatch_reads (rest ++ String c t) k (pre ++ rest)
                       (String.length pre)).
Proof.
  induction rest as [|d rest IH]; intros pre c t; simpl.
  - left. now rewrite append_empty_r.
  - right. unfold deref. rewrite get_app_length. simpl.
    rewrite Ascii.eqb_refl.
    specialize (IH (pre ++ String d "") c t).
    rewrite append_assoc in IH. simpl in IH.
    replace (String.length (pre ++ String d "")) with (S (String.length pre))
      in IH by (rewrite length_append; simpl; lia).
    exact IH.
Qed.

(** C10 does not hold of the code: the scan of [getRoot] is
    [std::mismatch] with the start of the candidate only, and for the
    stored candidates "abc" and "ab" it compares the byte at offset 2 of
    [RootStr], which has 3 bytes, with the byte at offset 2 of "ab", which
    has 2: a read past the end of the shorter string, whatever the memory
    holds. *)
Theorem getRoot_reads_past_the_end :
  In (mkComparison 1 2 3 2) (getRoot_reads (Toy.stored ["abc"; "ab"])) /\
  ~ in_bounds (mkComparison 1 2 3 2) /\
  ~ Forall in_bounds (getRoot_reads (Toy.stored ["abc"; "ab"])).
Proof.
  assert (H : In (mkComparison 1 2 3 2)
                 (getRoot_reads (Toy.stored ["abc"; "ab"]))).
  { cbn. do 5 right. left. reflexivity. }
  assert (Hn : ~ in_bounds (mkComparison 1 2 3 2)).
  { unfold in_bounds; simpl. lia. }
  split; [exact H|]. split; [exact Hn|].
  intros Hall. rewrite Forall_forall in Hall. exact (Hn (Hall _ H)).
Qed.

End Overread.

(** ** The cursor *)

Section Cursor.

Context {F : Frontend} {A : Arena}.

Local Abbreviation TU := (TranslationUnit Decl DiagnosticConsumer).

Lemma getRoot_setIdx (C : REPLCompletions) (Idx : N) :
  getRoot (setIdx C Idx) = (fst (getRoot C), setIdx (snd (getRoot C)) Idx).
Proof. destruct C as [St P [R|] CS [|S0 CIS] Idx0]; reflexivity. Qed.

Lemma getRoot_reset (C : REPLCompletions) :
  getRoot (reset C) = (fst (getRoot C), reset (snd (getRoot C))).
Proof. destruct C as [St P [R|] CS [|S0 CIS] Idx0]; reflexivity. Qed.

Lemma isEmpty_false {X : Type} (v : list X) : v <> [] -> isEmpty v = false.
Proof. destruct v; [contradiction | reflexivity]. Qed.

(** [populate] leaves the cursor unset and the root to be computed. *)
Lemma populate_cursor (fuel : nat) (T : TU) code C T' C' :
  populate fuel T code C = Returns (T', C') ->
  CurrentCompletionIdx C' = SIZE_MAX /\ Root C' = None.
Proof.
  intros H. apply populate_inv in H as (_ & T1 & B1 & C1 & E1 & H).
  apply doCodeCompletion_inv in E1 as (Batches1 & _ & -> & _).
  rewrite handleResults_batches in H. simpl in H.
  destruct H as [(_ & _ & ->) | (tk & B2 & C2 & _ & _ & E2 & ->)].
  - split; reflexivity.
  - apply doCodeCompletion_inv in E2 as (Batches2 & _ & -> & _).
    rewrite handleResults_batches. split; reflexivity.
Qed.

(** One call of [getNextStem] on a session with candidates. *)
Lemma getNextStem_nonempty (C : REPLCompletions) :
  CompletionInsertableStrings C <> [] ->
  let Idx :=
    (if N.of_nat (List.length (CompletionInsertableStrings C))
          <=? to_size_t (CurrentCompletionIdx C + 1)
     then 0 else to_size_t (CurrentCompletionIdx C + 1))%N in
  exists Cand,
    nth_error (CompletionInsertableStrings C) (N.to_nat Idx) = Some Cand /\
    getNextStem C
    = Some (substr Cand (String.length (fst (getRoot C))),
            setIdx (snd (getRoot C)) Idx).
Proof.
  intros Hne Idx. unfold getNextStem. rewrite (isEmpty_false _ Hne).
  fold Idx. simpl.
  assert (Hlt : N.to_nat Idx < List.length (CompletionInsertableStrings C)).
  { subst Idx.
    destruct (N.leb_spec
                (N.of_nat (List.length (CompletionInsertableStrings C)))
                (to_size_t (CurrentCompletionIdx C + 1))) as [_|Hlt].
    - destruct (CompletionInsertableStrings C); [contradiction|simpl; lia].
    - lia. }
  destruct (nth_error (CompletionInsertableStrings C) (N.to_nat Idx))
    as [Cand|] eqn:E.
  - exists Cand. split; [reflexivity|]. now rewrite getRoot_setIdx.
  - apply nth_error_None in E. lia.
Qed.

(** The cursor after [getNextStem]: zero when it was unset, the next
    position, or zero past the end, otherwise. *)
Lemma next_index_unset (len : nat) :
  len <> 0 ->
  (if N.of_nat len <=? to_size_t (SIZE_MAX + 1)
   then 0 else to_size_t (SIZE_MAX + 1))%N = 0%N.
Proof.
  intros H. replace (to_size_t (SIZE_MAX + 1)) with 0%N by reflexivity.
  now destruct (N.of_nat len <=? 0)%N.
Qed.

Lemma next_index_set (len i : nat) :
  (N.of_nat len < 2 ^ 64)%N -> i < len ->
  (if N.of_nat len <=? to_size_t (N.of_nat i + 1)
   then 0 else to_size_t (N.of_nat i + 1))%N
  = N.of_nat ((i + 1) mod len).
Proof.
  intros Hlen Hi. unfold to_size_t.
  rewrite N.mod_small by lia.
  destruct (N.leb_spec (N.of_nat len) (N.of_nat i + 1)) as [Hle|Hlt].
  - assert (i + 1 = len) as -> by lia.
    now rewrite Nat.Div0.mod_same.
  - rewrite Nat.mod_small by lia. lia.
Qed.

(** [n] calls of [getNextStem] from the position [i]. *)
Lemma getNextStems_from (v : list string) (n : nat) :
  forall (C : REPLCompletions) (i : nat),
    CompletionInsertableStrings C = v ->
    (N.of_nat (List.length v) < 2 ^ 64)%N ->
    CurrentCompletionIdx C = N.of_nat i -> i < List.length v ->
    exists C',
      getNextStems n C
      = Some (map (fun k =>
                     substr (nth ((i + 1 + k) mod List.length v) v "")
                            (String.length (fst (getRoot C))))
                  (seq 0 n), C') /\
      CompletionInsertableStrings C' = v /\
      CurrentCompletionIdx C' = N.of_nat ((i + n) mod List.length v) /\
      fst (getRoot C') = fst (getRoot C).
Proof.
  induction n as [|n IH]; intros C i Hv Hlen Hidx Hi.
  - exists C. simpl. rewrite Nat.add_0_r, Nat.mod_small by exact Hi.
    repeat split; assumption.
  - assert (Hne : CompletionInsertableStrings C <> [])
      by (rewrite Hv; destruct v; [simpl in Hi; lia | discriminate]).
    destruct (getNextStem_nonempty C Hne) as (Cand & Hnth & Hnext).
    rewrite Hv, Hidx, next_index_set in Hnth, Hnext by assumption.
    rewrite Nat2N.id in Hnth.
    cbn [getNextStems]. rewrite Hnext.
    pose proof (getRoot_fields C) as (_ & _ & _ & _ & HCIS & _).
    destruct (IH (setIdx (snd (getRoot C)) (N.of_nat ((i + 1) mod List.length v)))
                 ((i + 1) mod List.length v))
      as (C' & Hrest & HCIS' & Hidx' & Hroot').
    { simpl. now rewrite HCIS. }
    { exact Hlen. }
    { reflexivity. }
    { apply Nat.mod_upper_bound. lia. }
    rewrite Hrest. exists C'.
    rewrite getRoot_setIdx, getRoot_cached in *. simpl fst in *.
    split; [|split; [exact HCIS'|split; [|exact Hroot']]].
    + f_equal. f_equal. cbn [seq map]. f_equal.
      * rewrite Nat.add_0_r. now rewrite (nth_error_nth _ _ _ Hnth).
      * rewrite <- seq_shift, map_map. apply map_ext. intros k.
        rewrite <- Nat.add_assoc, Nat.Div0.add_mod_idemp_l.
        reflexivity.
    + rewrite Hidx'. f_equal.
      rewrite Nat.Div0.add_mod_idemp_l. f_equal. lia.
Qed.

(** [n] calls of [getNextStem] on a session whose cursor is unset. *)
Lemma getNextStems_unset (C : REPLCompletions) (n : nat) :
  CompletionInsertableStrings C <> [] ->
  (N.of_nat (List.length (CompletionInsertableStrings C)) < 2 ^ 64)%N ->
  CurrentCompletionIdx C = SIZE_MAX ->
  exists C',
    getNextStems n C
    = Some (map (fun k =>
                   substr (nth (k mod List.length
                                          (CompletionInsertableStrings C))
                               (CompletionInsertableStrings C) "")
                          (String.length (fst (getRoot C))))
                (seq 0 n), C') /\
    CompletionInsertableStrings C' = CompletionInsertableStrings C /\
    (1 <= n ->
     CurrentCompletionIdx C'
     = N.of_nat ((n - 1)
                   mod List.length (CompletionInsertableStrings C))) /\
    fst (getRoot C') = fst (getRoot C).
Proof.
  intros Hne Hlen Hidx.
  destruct n as [|n].
  - exists C. repeat split. intros H; lia.
  - destruct (getNextStem_nonempty C Hne) as (Cand & Hnth & Hnext).
    assert (Hpos : List.length (CompletionInsertableStrings C) <> 0)
      by (destruct (CompletionInsertableStrings C);
          [contradiction | discriminate]).
    rewrite Hidx, next_index_unset in Hnth, Hnext by exact Hpos.
    pose proof (getRoot_fields C) as (_ & _ & _ & _ & HCIS & _).
    destruct (getNextStems_from (CompletionInsertableStrings C) n
                (setIdx (snd (getRoot C)) 0) 0)
      as (C' & Hrest & HCIS' & Hidx' & Hroot').
    { simpl. exact HCIS. }
    { exact Hlen. }
    { reflexivity. }
    { lia. }
    cbn [getNextStems]. rewrite Hnext, Hrest. exists C'.
    rewrite getRoot_setIdx, getRoot_cached in *. simpl fst in *.
    split; [|split; [exact HCIS'|split; [|exact Hroot']]].
    + f_equal. f_equal. cbn [seq map]. f_equal.
      * rewrite Nat.Div0.mod_0_l. now rewrite (nth_error_nth _ _ _ Hnth).
      * rewrite <- seq_shift, map_map. apply map_ext. intros k.
        do 3 f_equal.
    + intros _. rewrite Hidx'. do 2 f_equal. lia.
Qed.

End Cursor.

(** ** The public interface *)

Lemma map_nth_seq {X Y : Type} (f : X -> Y) (d : X) (v : list X) :
  map (fun k => f (nth (k mod List.length v) v d)) (seq 0 (List.length v))
  = map f v.
Proof.
  transitivity (map (fun k => f (nth k v d)) (seq 0 (List.length v))).
  - apply map_ext_in. intros k Hk. apply in_seq in Hk.
    now rewrite Nat.mod_small by lia.
  - induction v as [|a v IH]; simpl; [reflexivity|].
    f_equal. rewrite <- seq_shift, map_map. exact IH.
Qed.

Section Interface.

Context {F : Frontend} {A : Arena}.

Local Abbreviation TU := (TranslationUnit Decl DiagnosticConsumer).

Lemma cursor_ok_ext (C C' : REPLCompletions) :
  CompletionInsertableStrings C' = CompletionInsertableStrings C ->
  CurrentCompletionIdx C' = CurrentCompletionIdx C ->
  cursor_ok C -> cursor_ok C'.
Proof. unfold cursor_ok. intros -> ->. exact (fun H => H). Qed.

(** [getPreviousStem] changes nothing but the cache of the root. *)
Lemma getPreviousStem_inv (C : REPLCompletions) Stem C' :
  getPreviousStem C = Some (Stem, C') ->
  C' = C \/ C' = snd (getRoot C).
Proof.
  unfold getPreviousStem.
  destruct (_ || _); [intros H; injection H as <- <-; now left|].
  destruct (nth_error _ _) as [Cand|]; [|discriminate].
  destruct (getRoot C) as [R C2]. intros H; injection H as <- <-.
  now right.
Qed.

(** The cursor of a session a caller can hold selects nothing or one of
    the stored candidates. *)
Lemma reachable_cursor_ok (C : REPLCompletions) :
  reachable C -> cursor_ok C.
Proof.
  induction 1 as [Idx | C fuel T code T' C' _ _ Hpop | C _ IH
                 | C Stem C' _ IH Hprev | C Stem C' _ IH Hnext | C _ IH].
  - left. reflexivity.
  - right. left. now apply populate_cursor in Hpop.
  - pose proof (getRoot_fields C) as (_ & _ & _ & _ & H1 & H2).
    exact (cursor_ok_ext _ _ H1 H2 IH).
  - apply getPreviousStem_inv in Hprev as [-> | ->]; [exact IH|].
    pose proof (getRoot_fields C) as (_ & _ & _ & _ & H1 & H2).
    exact (cursor_ok_ext _ _ H1 H2 IH).
  - destruct (CompletionInsertableStrings C) as [|S0 v] eqn:E.
    + unfold getNextStem in Hnext. rewrite E in Hnext. simpl in Hnext.
      injection Hnext as _ <-. left. exact E.
    + assert (Hne : CompletionInsertableStrings C <> [])
        by (rewrite E; discriminate).
      destruct (getNextStem_nonempty C Hne) as (Cand & Hnth & Hnext').
      rewrite Hnext' in Hnext. injection Hnext as _ <-.
      right. right. simpl.
      pose proof (getRoot_fields C) as (_ & _ & _ & _ & H1 & _).
      rewrite H1.
      assert (Hlt : nth_error (CompletionInsertableStrings C)
                      (N.to_nat
                         (if (N.of_nat
                                (List.length (CompletionInsertableStrings C))
                              <=? to_size_t (CurrentCompletionIdx C + 1))%N
                          then 0%N
                          else to_size_t (CurrentCompletionIdx C + 1)))
                    <> None) by (rewrite Hnth; discriminate).
      apply nth_error_Some in Hlt. lia.
  - exact (cursor_ok_ext _ (reset C) eq_refl eq_refl IH).
Qed.

(** [getPreviousStem] returns on every session a caller can hold. *)
Lemma getPreviousStem_current (C : REPLCompletions) :
  cursor_ok C ->
  CurrentCompletionIdx C <> SIZE_MAX ->
  CompletionInsertableStrings C <> [] ->
  exists Cand,
    nth_error (CompletionInsertableStrings C)
              (N.to_nat (CurrentCompletionIdx C)) = Some Cand /\
    getPreviousStem C
    = Some (substr Cand (String.length (fst (getRoot C))), snd (getRoot C)).
Proof.
  intros [H | [H | H]] Hset Hne; try contradiction.
  unfold getPreviousStem.
  apply N.eqb_neq in Hset. rewrite Hset, (isEmpty_false _ Hne). simpl.
  destruct (nth_error _ _) as [Cand|] eqn:E.
  - exists Cand. split; [reflexivity|]. now destruct (getRoot C).
  - apply nth_error_None in E. lia.
Qed.

Lemma getPreviousStem_unset (C : REPLCompletions) :
  CurrentCompletionIdx C = SIZE_MAX \/ CompletionInsertableStrings C = [] ->
  getPreviousStem C = Some ("", C).
Proof.
  unfold getPreviousStem. intros [H | H]; rewrite H.
  - reflexivity.
  - now rewrite orb_true_r.
Qed.

End Interface.


(** * The session at work

    The entered code is [let x = Str]; the program state has two declarations
    and one diagnostic consumer. *)

Lemma Toy_populate :
  @populate Toy.postfix 2 Toy.program Toy.entered (newCompletions 0)
  = Returns Toy.populated.
Proof. vm_compute. reflexivity. Qed.

Lemma Toy_populate_plain :
  @populate Toy.plain 2 Toy.program Toy.entered (newCompletions 0)
  = Returns Toy.populated_plain.
Proof. vm_compute. reflexivity. Qed.

Lemma Toy_populate_before :
  @populate Toy.plain 2 Toy.program Toy.entered_before (newCompletions 0)
  = Returns Toy.populated_before.
Proof. vm_compute. reflexivity. Qed.

Lemma Toy_first_pass :
  @doCodeCompletion Toy.postfix 2 Toy.program Toy.entered
                    (clear (newCompletions 0))
  = Returns Toy.first_pass.
Proof. vm_compute. reflexivity. Qed.

Lemma Toy_second_pass :
  @doCodeCompletion Toy.postfix 2 (fst (fst Toy.first_pass)) Toy.entered_before
                    (setPrefix (clear (newCompletions 0)) "Str")
  = Returns Toy.second_pass.
Proof. vm_compute. reflexivity. Qed.

Lemma Toy_last_token :
  last (map Some (@tokenize Toy.postfix
                    (SourceMgr (getASTContext (fst (fst Toy.first_pass))))
                    (snd (fst Toy.first_pass)))) None
  = Some (mkToken tok.identifier "Str" 8).
Proof. vm_compute. reflexivity. Qed.

Lemma Toy_program_small :
  (N.of_nat (List.length (Decls Toy.program)) < 2 ^ 32)%N.
Proof. vm_compute. reflexivity. Qed.

Lemma Toy_appends : @appends_declarations Toy.postfix.
Proof.
  split; [|split].
  - intros T B O PS. exists [PS]. reflexivity.
  - intros T n. exists []. symmetry. apply app_nil_r.
  - intros T PS O. exists []. symmetry. apply app_nil_r.
Qed.

Lemma populate_restores_program_state_witness :
  Decls (fst Toy.populated) = [10; 11] /\
  List.length (Decls (fst Toy.populated)) = 2 /\
  (exists Left,
      Consumers (Diags (getASTContext (fst Toy.populated)))
      = (Left ++ ["printer"])%list) /\
  HadAnyError (Diags (getASTContext (fst Toy.populated))) = false.
Proof.
  destruct (proj2 (@populate_restores_program_state Toy.postfix)
              2 Toy.program Toy.entered (newCompletions 0)
              (fst Toy.populated) (snd Toy.populated)
              Toy_program_small Toy_populate)
    as (HL & HA & HC & HE).
  split; [exact (HA Toy_appends)|]. split; [exact HL|].
  split; [exact HC | exact HE].
Defined.

Lemma Toy_parses :
  forall (T : @TranslationUnit (@Decl Toy.plain) (@DiagnosticConsumer Toy.plain))
         B O Cur PS,
    @parse_finishes Toy.plain T B O Cur PS.
Proof.
  intros T B O Cur [|PS].
  - eapply finishes_more; [reflexivity|].
    eapply finishes_done. reflexivity.
  - eapply finishes_done. reflexivity.
Qed.

Lemma Toy_crowded_length :
  List.length (Decls Toy.crowded) = N.to_nat (2 ^ 32).
Proof. exact (repeat_length 0 (N.to_nat (2 ^ 32))). Qed.

(** The claim C2 fails as it is stated: on a program state with 2^32
    declarations the count read into [OriginalDeclCount] is 0, and a call of
    [populate], which returns, leaves the program state without any
    declaration, although the collaborators only added some. *)
Lemma populate_loses_declarations :
  exists fuel T' C',
    @populate Toy.plain fuel Toy.crowded Toy.entered (newCompletions 0)
    = Returns (T', C') /\
    List.length (Decls Toy.crowded) = N.to_nat (2 ^ 32) /\
    to_unsigned (N.of_nat (List.length (Decls Toy.crowded))) = 0%N /\
    Decls T' = [] /\
    List.length (Decls T') <> List.length (Decls Toy.crowded).
Proof.
  destruct (@populate_returns Toy.plain Toy.crowded Toy.entered
              (newCompletions 0) eq_refl Toy_parses)
    as (fuel & [T' C'] & H).
  assert (H0 : to_unsigned (N.of_nat (List.length (Decls Toy.crowded))) = 0%N).
  { rewrite Toy_crowded_length, N2Nat.id. vm_compute. reflexivity. }
  pose proof (@populate_wraps Toy.plain _ _ _ _ _ _ H0 H) as HD.
  exists fuel, T', C'.
  split; [exact H|]. split; [exact Toy_crowded_length|].
  split; [exact H0|]. split; [exact HD|].
  rewrite HD, Toy_crowded_length. intros E.
  apply (f_equal N.of_nat) in E. rewrite N2Nat.id in E.
  vm_compute in E. discriminate E.
Qed.

Lemma populate_state_witness :
  State (snd Toy.populated) = CompletedRoot
  <-> 2 <= List.length (CompletionInsertableStrings (snd Toy.populated)).
Proof.
  exact (proj1 (proj2 (proj2
           (@populate_state Toy.postfix 2 Toy.program Toy.entered
              (newCompletions 0) (fst Toy.populated) (snd Toy.populated)
              Toy_populate)))).
Defined.

Lemma populate_two_passes_witness :
  Prefix (snd Toy.populated) = "Str" /\
  CompletionInsertableStrings (snd Toy.populated)
  = ([".self"] ++ ["ing"; "ingProtocol"])%list.
Proof.
  destruct (@populate_two_passes Toy.postfix 2 Toy.program Toy.entered
              (newCompletions 0) (fst Toy.populated) (snd Toy.populated)
              (fst (fst Toy.first_pass)) (snd (fst Toy.first_pass))
              (snd Toy.first_pass) (mkToken tok.identifier "Str" 8)
              Toy_populate Toy_first_pass Toy_last_token eq_refl)
    as (HP & B2 & C2 & Batches1 & Batches2 & E2 & _ & _ & _ & _ & _ & _
        & HI & _).
  split; [exact HP|].
  rewrite HI.
  change (@doCodeCompletion Toy.postfix 2 (fst (fst Toy.first_pass))
            Toy.entered_before (setPrefix (clear (newCompletions 0)) "Str")
          = Returns (fst Toy.populated, B2, C2)) in E2.
  rewrite Toy_second_pass in E2. injection E2 as _ E2. rewrite <- E2.
  vm_compute. reflexivity.
Defined.

Lemma populate_prefix_filter_witness :
  exists Batches1 Batches2,
    CompletionInsertableStrings (snd Toy.populated)
    = (map toInsertableString (List.concat Batches1)
         ++ map (fun R => substr (toInsertableString R)
                                 (String.length (Prefix (snd Toy.populated))))
                (accepted (Prefix (snd Toy.populated)) Batches2))%list.
Proof.
  destruct (@populate_prefix_filter Toy.postfix 2 Toy.program Toy.entered
              (newCompletions 0) (fst Toy.populated) (snd Toy.populated)
              Toy_populate)
    as (T1 & B1 & Batches1 & Batches2 & _ & _ & HI & _).
  exists Batches1, Batches2. exact HI.
Defined.

(** The claim C1 fails as it is stated: the last token of the augmented
    buffer is the identifier [Str], the second pass stores "ing" and
    "ingProtocol", and [populate] returns with ".self", which the first pass
    stored, in front of them. *)
Lemma populate_keeps_first_pass :
  @doCodeCompletion Toy.postfix 2 Toy.program Toy.entered
                    (clear (newCompletions 0))
  = Returns Toy.first_pass /\
  last (map Some (@tokenize Toy.postfix
                    (SourceMgr (getASTContext (fst (fst Toy.first_pass))))
                    (snd (fst Toy.first_pass)))) None
  = Some (mkToken tok.identifier "Str" 8) /\
  @doCodeCompletion Toy.postfix 2 (fst (fst Toy.first_pass))
                    (truncate Toy.entered (N.to_nat (to_unsigned 8)))
                    (setPrefix (clear (newCompletions 0)) "Str")
  = Returns Toy.second_pass /\
  @populate Toy.postfix 2 Toy.program Toy.entered (newCompletions 0)
  = Returns Toy.populated /\
  CompletionInsertableStrings (snd Toy.second_pass) = ["ing"; "ingProtocol"] /\
  CompletionInsertableStrings (snd Toy.populated)
  = [".self"; "ing"; "ingProtocol"] /\
  CompletionInsertableStrings (snd Toy.populated)
  <> CompletionInsertableStrings (snd Toy.second_pass) /\
  CompletionStrings (snd Toy.populated)
  <> CompletionStrings (snd Toy.second_pass).
Proof.
  split; [exact Toy_first_pass|]. split; [exact Toy_last_token|].
  split; [exact Toy_second_pass|]. split; [exact Toy_populate|].
  repeat split; discriminate.
Qed.

(** The claim C3 fails as it is stated: [populate] returns with the prefix
    "Str" and with the entry ".self", stored for a result whose insertable
    text is ".self": this text does not start with the prefix, nothing was
    stripped from it, and no result offered during the call has an
    insertable text that starts with "Str" and leaves ".self" without its
    first three bytes. *)
Lemma populate_stores_unfiltered :
  @populate Toy.postfix 2 Toy.program Toy.entered (newCompletions 0)
  = Returns Toy.populated /\
  Prefix (snd Toy.populated) = "Str" /\
  nth_error (CompletionInsertableStrings (snd Toy.populated)) 0
  = Some ".self" /\
  nth_error (CompletionStrings (snd Toy.populated)) 0
  = Some "SwiftDecl: .self" /\
  (let R := mkResult [Chunk.mk Dot "."; Chunk.mk Text "self"]
                     "SwiftDecl: .self" in
   print R = "SwiftDecl: .self" /\
   toInsertableString R = ".self" /\
   startswith (toInsertableString R) (Prefix (snd Toy.populated)) = false /\
   substr (toInsertableString R) (String.length (Prefix (snd Toy.populated)))
   <> ".self") /\
  ~ exists R,
      In R ([mkResult [Chunk.mk Dot "."; Chunk.mk Text "self"]
                      "SwiftDecl: .self"] ++ List.concat Toy.names)%list /\
      startswith (toInsertableString R) (Prefix (snd Toy.populated)) = true /\
      substr (toInsertableString R)
             (String.length (Prefix (snd Toy.populated))) = ".self".
Proof.
  split; [exact Toy_populate|].
  repeat split; try discriminate.
  intros (R & HR & H1 & H2). simpl in HR.
  repeat (destruct HR as [<- | HR]; [discriminate|]). contradiction.
Qed.

Lemma Toy_populate_pend :
  @populate (Toy.offering Toy.pend_names) 2 Toy.program Toy.entered_before
            (newCompletions 0)
  = Returns Toy.populated_pend.
Proof. vm_compute. reflexivity. Qed.

Lemma Toy_populate_abc :
  @populate (Toy.offering Toy.abc_names) 2 Toy.program Toy.entered_before
            (newCompletions 0)
  = Returns Toy.populated_abc.
Proof. vm_compute. reflexivity. Qed.

Lemma pend_longest_common_prefix :
  longest_common_prefix "pend" ["pendValue"; "pend"].
Proof.
  split.
  - repeat constructor.
  - intros r H. apply Forall_inv_tail in H. apply Forall_inv in H.
    now apply startswith_length in H.
Qed.

(** C7 does not hold of the code: after a [populate] that stores the
    candidates "pendValue" and "pend", whose common root is "pend", the
    stems are "Value" and the empty string.  The first [getNextStem] calls
    [getRoot], whose scan reads "pend" at offset 4, past its end, whatever
    the memory holds; with the letter V in that byte the root is "pendV",
    and the two calls of [getNextStem] return "alue" and the empty string.
    The cursor goes from unset to 0 and to 1 as the claim says. *)
Theorem getNextStem_wrong_stems :
  @populate (Toy.offering Toy.pend_names) 2 Toy.program Toy.entered_before
            (newCompletions 0)
  = Returns Toy.populated_pend /\
  CompletionInsertableStrings (snd Toy.populated_pend)
  = ["pendValue"; "pend"] /\
  longest_common_prefix "pend" ["pendValue"; "pend"] /\
  map (fun Cand => substr Cand (String.length "pend")) ["pendValue"; "pend"]
  = ["Value"; ""] /\
  (exists C',
      @getNextStems Toy.stale 2 (snd Toy.populated_pend)
      = Some (["alue"; ""], C') /\
      CurrentCompletionIdx C' = 1%N) /\
  (forall A : Arena,
      In (mkComparison 1 4 9 4)
         (@getRoot_reads A (setIdx (snd Toy.populated_pend) 0))) /\
  ~ in_bounds (mkComparison 1 4 9 4).
Proof.
  split; [exact Toy_populate_pend|]. split; [reflexivity|].
  split; [exact pend_longest_common_prefix|]. split; [reflexivity|].
  split; [|split].
  - eexists. split; vm_compute; reflexivity.
  - intros A. cbn. do 13 right. left. reflexivity.
  - unfold in_bounds; simpl. lia.
Qed.

(** C8 does not hold of the code: with the candidates "pendValue" and
    "pend" and the letter V in the byte that follows "pend" in memory, after
    one [getNextStem] the cursor selects "pendValue", whose stem is "Value"
    (the common root is "pend"), and [getPreviousStem] returns "alue": the
    root it measures the stem with is the "pendV" that the scan of [getRoot]
    produced by reading past the end of "pend".  The cursor is left where it
    is, as the claim says. *)
Theorem getPreviousStem_wrong_stem :
  @populate (Toy.offering Toy.pend_names) 2 Toy.program Toy.entered_before
            (newCompletions 0)
  = Returns Toy.populated_pend /\
  exists C1,
    @getNextStem Toy.stale (snd Toy.populated_pend) = Some ("alue", C1) /\
    CurrentCompletionIdx C1 = 0%N /\
    nth_error (CompletionInsertableStrings C1) 0 = Some "pendValue" /\
    longest_common_prefix "pend" (CompletionInsertableStrings C1) /\
    substr "pendValue" (String.length "pend") = "Value" /\
    Root C1 = Some "pendV" /\
    @getPreviousStem Toy.stale C1 = Some ("alue", C1).
Proof.
  split; [exact Toy_populate_pend|].
  eexists. split; [vm_compute; reflexivity|].
  split; [reflexivity|]. split; [reflexivity|].
  split; [exact pend_longest_common_prefix|].
  split; [reflexivity|]. split; [reflexivity|].
  vm_compute. reflexivity.
Qed.

(** C9 does not hold of the code: [reset] does change nothing but the
    state, so after a [populate] that stores "abc" and "ab" the session
    still holds both, with no cached root; [getRoot] and [getNextStem]
    called right after [reset] then run the scan that reads "ab" at offset
    2, past its end, whatever the memory holds. *)
Theorem reset_then_reads_past_the_end :
  @populate (Toy.offering Toy.abc_names) 2 Toy.program Toy.entered_before
            (newCompletions 0)
  = Returns Toy.populated_abc /\
  State (reset (snd Toy.populated_abc)) = Invalid /\
  CompletionInsertableStrings (reset (snd Toy.populated_abc))
  = ["abc"; "ab"] /\
  Root (reset (snd Toy.populated_abc)) = None /\
  (forall A : Arena,
      @reachable (Toy.offering Toy.abc_names) A
                 (reset (snd Toy.populated_abc)) /\
      In (mkComparison 1 2 3 2)
         (@getRoot_reads A (reset (snd Toy.populated_abc))) /\
      In (mkComparison 1 2 3 2)
         (@getRoot_reads A (setIdx (reset (snd Toy.populated_abc)) 0))) /\
  ~ in_bounds (mkComparison 1 2 3 2).
Proof.
  split; [exact Toy_populate_abc|].
  split; [reflexivity|]. split; [reflexivity|]. split; [reflexivity|].
  split.
  - intros A. split; [|split].
    + apply reach_reset.
      exact (@reach_populate (Toy.offering Toy.abc_names) A
               (newCompletions 0) 2 Toy.program Toy.entered_before
               (fst Toy.populated_abc) (snd Toy.populated_abc)
               (reach_new 0) Toy_populate_abc).
    + cbn. do 5 right. left. reflexivity.
    + cbn. do 5 right. left. reflexivity.
  - unfold in_bounds; simpl. lia.
Qed.

Lemma Toy_reachable :
  @reachable Toy.plain Toy.zeros (snd Toy.populated_before).
Proof.
  exact (@reach_populate Toy.plain Toy.zeros (newCompletions 0) 2 Toy.program
           Toy.entered_before (fst Toy.populated_before)
           (snd Toy.populated_before) (reach_new 0) Toy_populate_before).
Qed.

(** The scenario of the design document: [let x = ] followed by [Str], with
    the names [String] and [StringProtocol] on offer and nothing offered
    after an identifier. *)
Example populate_scenario :
  Prefix (snd Toy.populated_plain) = "Str" /\
  CompletionInsertableStrings (snd Toy.populated_plain)
  = ["ing"; "ingProtocol"] /\
  fst (@getRoot Toy.zeros (snd Toy.populated_plain)) = "ing" /\
  State (snd Toy.populated_plain) = CompletedRoot /\
  Forall in_bounds (@getRoot_reads Toy.zeros (snd Toy.populated_plain)).
Proof.
  repeat split; try reflexivity.
  vm_compute. repeat constructor.
Qed.

(** * Further properties of the consumer and of the insertable string *)

Lemma leading_literals_cut (l1 : list Chunk) (C : Chunk) (l2 : list Chunk) :
  appended (Chunk.getKind C) = false ->
  leading_literals (l1 ++ C :: l2) = leading_literals l1.
Proof.
  intros HC. induction l1 as [|D l1 IH]; simpl.
  - now rewrite HC.
  - destruct (appended (Chunk.getKind D)); [now rewrite IH | reflexivity].
Qed.

(** X1: whatever follows the first chunk of a call-parameter, optional-begin
    or type-annotation kind never reaches the insertable string, chunks of a
    literal kind included: the insertable string of a result whose chunks
    are [l1], such a chunk and [l2] is the one of [l1] alone. *)
Theorem toInsertableString_ignores_rest (l1 : list Chunk) (C : Chunk)
    (l2 : list Chunk) (display display' : string) :
  appended (Chunk.getKind C) = false ->
  toInsertableString (mkResult (l1 ++ C :: l2) display)
  = toInsertableString (mkResult l1 display').
Proof.
  intros HC. unfold toInsertableString. simpl.
  now rewrite !toInsertableString_loop_spec, (leading_literals_cut _ _ _ HC).
Qed.

Lemma toInsertableString_ignores_rest_witness :
  toInsertableString
    (mkResult ([Chunk.mk Text "foo"; Chunk.mk LeftParen "("]
                 ++ Chunk.mk CallParameterBegin ""
                 :: [Chunk.mk CallParameterName "x"; Chunk.mk RightParen ")"])
              "foo(x)")
  = "foo(".
Proof.
  exact (toInsertableString_ignores_rest
           [Chunk.mk Text "foo"; Chunk.mk LeftParen "("]
           (Chunk.mk CallParameterBegin "")
           [Chunk.mk CallParameterName "x"; Chunk.mk RightParen ")"]
           "foo(x)" "" eq_refl).
Defined.

(** X2: the consumer only appends, in the order in which the results are
    offered, and how the generator cuts its results into batches makes no
    difference: after any batches the session is the one a single call of
    [handleResults] with all the results leaves, and each list is the list
    it was followed by the entries of the results that pass the filter. *)
Theorem handleResults_batching (Batches : list (list CodeCompletionResult))
    (Completions : REPLCompletions) :
  fold_left handleResults Batches Completions
  = handleResults Completions (List.concat Batches) /\
  CompletionInsertableStrings (fold_left handleResults Batches Completions)
  = (CompletionInsertableStrings Completions
       ++ map (fun R => substr (toInsertableString R)
                               (String.length (Prefix Completions)))
              (filter (fun R => startswith (toInsertableString R)
                                           (Prefix Completions))
                      (List.concat Batches)))%list /\
  CompletionStrings (fold_left handleResults Batches Completions)
  = (CompletionStrings Completions
       ++ map print
              (filter (fun R => startswith (toInsertableString R)
                                           (Prefix Completions))
                      (List.concat Batches)))%list.
Proof.
  rewrite handleResults_batches. unfold handleResults.
  rewrite fold_handleResult.
  unfold stored_display, stored_insertable, accepted. simpl.
  rewrite app_nil_r. repeat split.
Qed.

(** * Further properties of [populate] *)

Section PopulateMore.

Context {F : Frontend}.

Local Abbreviation TU := (TranslationUnit Decl DiagnosticConsumer).

(** A pass treats all sessions alike: what it does to the program state, the
    buffer it registers and the batches it hands over are the same. *)
Lemma doCodeCompletion_session (fuel : nat) (T : TU) (code : string)
    (C1 C2 : REPLCompletions) :
  match doCodeCompletion fuel T code C1 with
  | Returns (T', B, C1') =>
      exists Batches,
        C1' = fold_left handleResults Batches C1 /\
        doCodeCompletion fuel T code C2
        = Returns (T', B, fold_left handleResults Batches C2)
  | AssertionFailed => doCodeCompletion fuel T code C2 = AssertionFailed
  | OutOfFuel => doCodeCompletion fuel T code C2 = OutOfFuel
  end.
Proof.
  destruct (doCodeCompletion fuel T code C1) as [[[T' B] C1']| |] eqn:E1.
  - apply doCodeCompletion_inv in E1 as (Batches & _ & -> & E & _).
    exists Batches. split; [reflexivity | apply E].
  - destruct (doCodeCompletion fuel T code C2) as [[[T' B] C2']| |] eqn:E2;
      [|reflexivity|].
    + apply doCodeCompletion_inv in E2 as (Batches & _ & _ & E & _).
      rewrite E in E1. discriminate.
    + unfold doCodeCompletion in E1, E2. simpl in E1, E2.
      destruct (parse_loop _ _ _ _ _ _) as [[Tp PS]| |]; try discriminate.
      destruct (performDelayedParsing _ _ _). discriminate.
  - destruct (doCodeCompletion fuel T code C2) as [[[T' B] C2']| |] eqn:E2;
      [| |reflexivity].
    + apply doCodeCompletion_inv in E2 as (Batches & _ & _ & E & _).
      rewrite E in E1. discriminate.
    + unfold doCodeCompletion in E1, E2. simpl in E1, E2.
      destruct (parse_loop _ _ _ _ _ _) as [[Tp PS]| |]; try discriminate.
      destruct (performDelayedParsing _ _ _). discriminate.
Qed.

(** X3: [populate] starts afresh: what it returns, program state and
    session, does not depend on the session it is called on, so no
    candidate, prefix, root, cursor or state of an earlier request
    survives. *)
Theorem populate_forgets (fuel : nat) (T : TU) (EnteredCode : string)
    (C1 C2 : REPLCompletions) :
  populate fuel T EnteredCode C1 = populate fuel T EnteredCode C2.
Proof.
  unfold populate. destruct (Kind T); [|reflexivity].
  pose proof (doCodeCompletion_session fuel T EnteredCode (clear C1) (clear C2))
    as H1.
  destruct (doCodeCompletion fuel T EnteredCode (clear C1))
    as [[[T1 B1] C1']| |]; [| now rewrite H1 | now rewrite H1].
  destruct H1 as (Batches1 & -> & ->).
  destruct (last _ None) as [LastToken|]; [|now rewrite !handleResults_batches].
  destruct (isIdentifierOrKeyword LastToken);
    [|now rewrite !handleResults_batches].
  pose proof (doCodeCompletion_session fuel T1
                (truncate EnteredCode
                          (N.to_nat (to_unsigned (getLoc LastToken))))
                (setPrefix (fold_left handleResults Batches1 (clear C1))
                           (getText LastToken))
                (setPrefix (fold_left handleResults Batches1 (clear C2))
                           (getText LastToken))) as H2.
  destruct (doCodeCompletion fuel T1 _
              (setPrefix (fold_left handleResults Batches1 (clear C1)) _))
    as [[[T2 B2] C2']| |]; [| now rewrite H2 | now rewrite H2].
  destruct H2 as (Batches2 & -> & ->).
  now rewrite !handleResults_batches.
Qed.

Lemma populate_fuel (fuel fuel' : nat) (T : TU) code C r :
  populate fuel T code C = Returns r -> fuel <= fuel' ->
  populate fuel' T code C = Returns r.
Proof.
  unfold populate. intros H Hle. destruct (Kind T); [|discriminate].
  destruct (doCodeCompletion fuel T code (clear C)) as [[[T1 B1] C1]| |] eqn:E1;
    try discriminate.
  rewrite (doCodeCompletion_fuel _ _ _ _ _ _ E1 Hle).
  destruct (last _ None) as [LastToken|]; [|exact H].
  destruct (isIdentifierOrKeyword LastToken); [|exact H].
  destruct (doCodeCompletion fuel T1 _ _) as [[[T2 B2] C2]| |] eqn:E2;
    try discriminate.
  now rewrite (doCodeCompletion_fuel _ _ _ _ _ _ E2 Hle).
Qed.

(** X4: with a parser that reports [Done] after finitely many chunks,
    [populate] returns exactly on the program states of the REPL kind (on
    the others its assertion fails), and once the parser has been given
    enough chunks to return, more change nothing. *)
Theorem populate_returns_iff_REPL (T : TU) (EnteredCode : string)
    (Completions : REPLCompletions) :
  (forall T B O Cur PS, parse_finishes T B O Cur PS) ->
  ((exists fuel r, populate fuel T EnteredCode Completions = Returns r)
   <-> Kind T = TranslationUnit.REPL) /\
  (Kind T = TranslationUnit.NotREPL ->
   forall fuel, populate fuel T EnteredCode Completions = AssertionFailed) /\
  (forall fuel fuel' r,
     populate fuel T EnteredCode Completions = Returns r -> fuel <= fuel' ->
     populate fuel' T EnteredCode Completions = Returns r).
Proof.
  intros Hfin. split; [split|split].
  - intros (fuel & [T' C'] & H). now apply populate_inv in H.
  - intros HK. now apply populate_returns.
  - intros HK fuel. now apply populate_not_REPL.
  - intros fuel fuel' r. apply populate_fuel.
Qed.

(** X5: when the buffer has no token after the first pass, or its last
    token is neither an identifier nor a keyword, [populate] runs that one
    pass only: it returns with the program state and the lists the pass
    left and with the empty prefix, so every result the generator offered
    is stored, unfiltered and unstripped. *)
Theorem populate_single_pass (fuel : nat) (T : TU) (EnteredCode : string)
    (Completions : REPLCompletions) (T' : TU)
    (Completions' : REPLCompletions) (T1 : TU) (B1 : N)
    (C1 : REPLCompletions) :
  populate fuel T EnteredCode Completions = Returns (T', Completions') ->
  doCodeCompletion fuel T EnteredCode (clear Completions)
    = Returns (T1, B1, C1) ->
  match last (map Some (tokenize (SourceMgr (getASTContext T1)) B1)) None with
  | Some LastToken => isIdentifierOrKeyword LastToken = false
  | None => True
  end ->
  T' = T1 /\
  Prefix Completions' = "" /\
  CompletionInsertableStrings Completions' = CompletionInsertableStrings C1 /\
  CompletionStrings Completions' = CompletionStrings C1 /\
  exists Batches,
    CompletionInsertableStrings Completions'
    = map toInsertableString (List.concat Batches) /\
    CompletionStrings Completions' = map print (List.concat Batches).
Proof.
  intros H E1 Hlast.
  apply populate_lists in H as (T1' & B1' & Batches1 & E1' & H).
  rewrite E1' in E1. injection E1 as -> -> <-.
  rewrite handleResults_batches. simpl.
  destruct H as [(-> & _ & HP & HI & HS)
                | (tk & B2 & Batches2 & Hlast' & Hid & _)].
  - rewrite HP, HI, HS. repeat split.
    exists Batches1.
    now rewrite stored_insertable_empty, stored_display_empty.
  - rewrite Hlast' in Hlast. congruence.
Qed.

End PopulateMore.

(** X6: with collaborators that only add declarations, after the existing
    ones, [populate] returns with the declaration list it was called with,
    element for element: the declarations added during a pass are the ones
    its resize removes. *)
Theorem populate_restores_declarations (F : Frontend)
    (fuel : nat) (T : TranslationUnit Decl DiagnosticConsumer)
    (EnteredCode : string) (Completions : REPLCompletions)
    (T' : TranslationUnit Decl DiagnosticConsumer)
    (Completions' : REPLCompletions) :
  (forall (T : TranslationUnit Decl DiagnosticConsumer) B O PS,
     exists extra,
       Decls (fst (fst (parseIntoTranslationUnit T B O PS)))
       = (Decls T ++ extra)%list) ->
  (forall (T : TranslationUnit Decl DiagnosticConsumer) n,
     exists extra, Decls (performTypeChecking T n) = (Decls T ++ extra)%list) ->
  (forall (T : TranslationUnit Decl DiagnosticConsumer) PS O,
     exists extra,
       Decls (fst (performDelayedParsing T PS O)) = (Decls T ++ extra)%list) ->
  (N.of_nat (List.length (Decls T)) < 2 ^ 32)%N ->
  populate fuel T EnteredCode Completions = Returns (T', Completions') ->
  Decls T' = Decls T.
Proof.
  intros H1 H2 H3. now apply populate_removes_speculative_declarations.
Qed.

Lemma Toy_parse_finishes :
  forall (T : @TranslationUnit (@Decl Toy.plain) (@DiagnosticConsumer Toy.plain))
         B O Cur PS,
    @parse_finishes Toy.plain T B O Cur PS.
Proof.
  intros T B O Cur [|PS].
  - eapply finishes_more; [reflexivity|].
    eapply finishes_done. reflexivity.
  - eapply finishes_done. reflexivity.
Qed.

Lemma populate_returns_iff_REPL_witness :
  exists fuel r,
    @populate Toy.plain fuel Toy.program Toy.entered (newCompletions 0)
    = Returns r.
Proof.
  exact (proj2 (proj1 (@populate_returns_iff_REPL Toy.plain Toy.program
                         Toy.entered (newCompletions 0) Toy_parse_finishes))
               eq_refl).
Defined.

Lemma populate_single_pass_witness :
  Prefix (snd Toy.populated_before) = "" /\
  CompletionInsertableStrings (snd Toy.populated_before)
  = ["String"; "StringProtocol"; "Int"].
Proof.
  edestruct (@populate_single_pass Toy.plain 2 Toy.program Toy.entered_before
               (newCompletions 0) (fst Toy.populated_before)
               (snd Toy.populated_before))
    as (_ & HP & _).
  - exact Toy_populate_before.
  - vm_compute. reflexivity.
  - vm_compute. reflexivity.
  - split; [exact HP | reflexivity].
Defined.

Lemma populate_restores_declarations_witness :
  Decls (fst Toy.populated) = Decls Toy.program.
Proof.
  exact (populate_restores_declarations Toy.postfix 2 Toy.program Toy.entered
           (newCompletions 0) (fst Toy.populated) (snd Toy.populated)
           (fun T B O PS => ex_intro _ [PS] eq_refl)
           (fun T n => ex_intro _ [] (eq_sym (app_nil_r _)))
           (fun T PS O => ex_intro _ [] (eq_sym (app_nil_r _)))
           Toy_program_small Toy_populate).
Defined.

(** * Further properties of the navigation *)

Section NavigationMore.

Context {F : Frontend} {A : Arena}.

Local Abbreviation TU := (TranslationUnit Decl DiagnosticConsumer).

Lemma getNextStem_frame (C : REPLCompletions) Stem C' :
  getNextStem C = Some (Stem, C') ->
  State C' = State C /\ Prefix C' = Prefix C /\
  CompletionStrings C' = CompletionStrings C /\
  CompletionInsertableStrings C' = CompletionInsertableStrings C /\
  Root C' = (if isEmpty (CompletionInsertableStrings C) then Root C
             else Some (fst (getRoot C))).
Proof.
  pose proof (getRoot_fields C) as (F1 & F2 & F3 & F4 & F5 & F6).
  destruct (CompletionInsertableStrings C) as [|S0 v] eqn:E.
  - unfold getNextStem. rewrite E. simpl. intros H; injection H as _ <-.
    now repeat split.
  - assert (Hne : CompletionInsertableStrings C <> [])
      by (rewrite E; discriminate).
    destruct (getNextStem_nonempty C Hne) as (Cand & _ & H). rewrite H.
    intros H'; injection H' as _ <-. simpl. now repeat split.
Qed.

Lemma getPreviousStem_frame (C : REPLCompletions) Stem C' :
  getPreviousStem C = Some (Stem, C') ->
  State C' = State C /\ Prefix C' = Prefix C /\
  CompletionStrings C' = CompletionStrings C /\
  CompletionInsertableStrings C' = CompletionInsertableStrings C /\
  CurrentCompletionIdx C' = CurrentCompletionIdx C /\
  (Root C' = Root C \/ Root C' = Some (fst (getRoot C))).
Proof.
  pose proof (getRoot_fields C) as (F1 & F2 & F3 & F4 & F5 & F6).
  intros H. apply getPreviousStem_inv in H as [-> | ->].
  - repeat split. now left.
  - repeat split; try assumption. now right.
Qed.

(** The value of [getRoot], cached or not. *)
Lemma getRoot_value (C : REPLCompletions) :
  fst (getRoot C)
  = match Root C with
    | Some R => R
    | None =>
        match CompletionInsertableStrings C with
        | [] => ""
        | S0 :: _ => getRoot_loop S0 0 (CompletionInsertableStrings C)
        end
    end.
Proof. destruct C as [St P [R|] CS [|S0 CIS] Idx]; reflexivity. Qed.

(** X7: the calls that read a session never touch what [populate] stored:
    [getRoot], [getNextStem] and [getPreviousStem] leave the state, the
    prefix and the two candidate lists as they are; [getRoot] and
    [getPreviousStem] leave the cursor too. *)
Theorem accessors_read_only (C : REPLCompletions) :
  (State (snd (getRoot C)) = State C /\
   Prefix (snd (getRoot C)) = Prefix C /\
   CompletionStrings (snd (getRoot C)) = CompletionStrings C /\
   CompletionInsertableStrings (snd (getRoot C))
   = CompletionInsertableStrings C /\
   CurrentCompletionIdx (snd (getRoot C)) = CurrentCompletionIdx C) /\
  (forall Stem C',
     getNextStem C = Some (Stem, C') ->
     State C' = State C /\ Prefix C' = Prefix C /\
     CompletionStrings C' = CompletionStrings C /\
     CompletionInsertableStrings C' = CompletionInsertableStrings C) /\
  (forall Stem C',
     getPreviousStem C = Some (Stem, C') ->
     State C' = State C /\ Prefix C' = Prefix C /\
     CompletionStrings C' = CompletionStrings C /\
     CompletionInsertableStrings C' = CompletionInsertableStrings C /\
     CurrentCompletionIdx C' = CurrentCompletionIdx C).
Proof.
  pose proof (getRoot_fields C) as (F1 & F2 & F3 & F4 & F5 & F6).
  split; [now repeat split|]. split.
  - intros Stem C' H.
    apply getNextStem_frame in H as (H1 & H2 & H3 & H4 & _).
    now repeat split.
  - intros Stem C' H.
    apply getPreviousStem_frame in H as (H1 & H2 & H3 & H4 & H5 & _).
    now repeat split.
Qed.

(** X8: on every session a caller can hold the two candidate lists have the
    same number of entries: a display string and an insertable string are
    stored together, and nothing removes one of them alone. *)
Theorem reachable_lists_paired (C : REPLCompletions) :
  reachable C ->
  List.length (CompletionStrings C)
  = List.length (CompletionInsertableStrings C).
Proof.
  induction 1 as [Idx | C fuel T code T' C' _ _ Hpop | C _ IH
                 | C Stem C' _ IH Hprev | C Stem C' _ IH Hnext | C _ IH].
  - reflexivity.
  - apply populate_lists in Hpop as (T1 & B1 & Batches1 & _ & H).
    destruct H as [(_ & _ & _ & -> & ->) | (tk & B2 & Batches2 & _ & _ & _ & _ & -> & ->)];
      unfold stored_display, stored_insertable;
      now rewrite ?length_app, !length_map.
  - pose proof (getRoot_fields C) as (_ & _ & _ & -> & -> & _). exact IH.
  - apply getPreviousStem_frame in Hprev as (_ & _ & -> & -> & _). exact IH.
  - apply getNextStem_frame in Hnext as (_ & _ & -> & -> & _). exact IH.
  - exact IH.
Qed.

(** X9: the cached root is never stale: on every session a caller can hold,
    [getRoot] returns what its loop computes from the candidates the session
    holds now, whether the value comes from the cache or not; [populate]
    empties the cache, and nothing else changes the candidates. *)
Theorem reachable_root_fresh (C : REPLCompletions) :
  reachable C ->
  fst (getRoot C)
  = match CompletionInsertableStrings C with
    | [] => ""
    | S0 :: _ => getRoot_loop S0 0 (CompletionInsertableStrings C)
    end.
Proof.
  intros H. rewrite getRoot_value.
  induction H as [Idx | C fuel T code T' C' _ _ Hpop | C _ IH
                 | C Stem C' _ IH Hprev | C Stem C' _ IH Hnext | C _ IH].
  - reflexivity.
  - apply populate_cursor in Hpop as [_ ->]. reflexivity.
  - pose proof (getRoot_fields C) as (_ & _ & -> & _ & -> & _).
    rewrite getRoot_value. exact IH.
  - apply getPreviousStem_frame in Hprev as (_ & _ & _ & -> & _ & [-> | ->]);
      [exact IH | rewrite getRoot_value; exact IH].
  - apply getNextStem_frame in Hnext as (_ & _ & _ & HC & HR).
    rewrite HC, HR.
    destruct (isEmpty (CompletionInsertableStrings C)); [exact IH|].
    rewrite getRoot_value. exact IH.
  - exact IH.
Qed.

(** X10: the state keeps telling how many candidates are stored: on every
    session a caller can hold the state is [Invalid] (a new session, or one
    that was reset), or it is [Empty] with no candidate, [Unique] with one,
    [CompletedRoot] with two or more. *)
Theorem reachable_state_counts (C : REPLCompletions) :
  reachable C ->
  State C = Invalid \/
  (State C = Empty /\ CompletionInsertableStrings C = []) \/
  (State C = Unique /\ List.length (CompletionInsertableStrings C) = 1) \/
  (State C = CompletedRoot /\
   2 <= List.length (CompletionInsertableStrings C)).
Proof.
  induction 1 as [Idx | C fuel T code T' C' _ _ Hpop | C _ IH
                 | C Stem C' _ IH Hprev | C Stem C' _ IH Hnext | C _ IH].
  - now left.
  - apply populate_classifies in Hpop as [C2 ->]. right.
    unfold classify; simpl.
    destruct (CompletionInsertableStrings C2) as [|a [|b l]]; simpl.
    + left. now split.
    + right. left. now split.
    + right. right. split; [reflexivity | lia].
  - pose proof (getRoot_fields C) as (-> & _ & _ & _ & -> & _). exact IH.
  - apply getPreviousStem_frame in Hprev as (-> & _ & _ & -> & _). exact IH.
  - apply getNextStem_frame in Hnext as (-> & _ & _ & -> & _). exact IH.
  - now left.
Qed.

End NavigationMore.

Lemma reachable_lists_paired_witness :
  List.length (CompletionStrings (snd Toy.populated_before))
  = List.length (CompletionInsertableStrings (snd Toy.populated_before)).
Proof.
  exact (@reachable_lists_paired Toy.plain Toy.zeros _ Toy_reachable).
Defined.

Lemma reachable_root_fresh_witness :
  fst (@getRoot Toy.zeros (snd Toy.populated_before))
  = @getRoot_loop Toy.zeros "String" 0 ["String"; "StringProtocol"; "Int"].
Proof.
  exact (@reachable_root_fresh Toy.plain Toy.zeros _ Toy_reachable).
Defined.

Lemma reachable_state_counts_witness :
  State (snd Toy.populated_before) = Invalid \/
  (State (snd Toy.populated_before) = Empty /\
   CompletionInsertableStrings (snd Toy.populated_before) = []) \/
  (State (snd Toy.populated_before) = Unique /\
   List.length (CompletionInsertableStrings (snd Toy.populated_before)) = 1) \/
  (State (snd Toy.populated_before) = CompletedRoot /\
   2 <= List.length (CompletionInsertableStrings (snd Toy.populated_before))).
Proof.
  exact (@reachable_state_counts Toy.plain Toy.zeros _ Toy_reachable).
Defined.

(** * Further properties of the root *)

Lemma truncate_empty (n : nat) : truncate "" n = "".
Proof. destruct n; reflexivity. Qed.

Lemma truncate_all (s : string) : truncate s (String.length s) = s.
Proof. induction s as [|c s IH]; simpl; [reflexivity | now rewrite IH]. Qed.

Lemma substr_all (s : string) : substr s (String.length s) = "".
Proof. induction s as [|c s IH]; simpl; [reflexivity | exact IH]. Qed.

Lemma truncate_length (s : string) (n : nat) :
  String.length (truncate s n) <= String.length s.
Proof.
  revert s; induction n as [|n IH]; intros [|c s]; simpl; try lia.
  specialize (IH s). lia.
Qed.

Lemma truncate_truncate (s : string) (a b : nat) :
  truncate (truncate s a) b = truncate s (Nat.min a b).
Proof.
  revert s b; induction a as [|a IH]; intros s b.
  - simpl. apply truncate_empty.
  - destruct s as [|c s]; [now rewrite !truncate_empty|].
    destruct b as [|b]; simpl; [reflexivity | now rewrite IH].
Qed.

Lemma truncate_prefix (a b : string) (n : nat) :
  startswith a b = true -> startswith (truncate a n) (truncate b n) = true.
Proof.
  revert a b; induction n as [|n IH]; intros a b H; simpl; [reflexivity|].
  destruct b as [|d b]; [apply startswith_empty|].
  destruct a as [|c a]; [discriminate|].
  simpl in *. apply andb_prop in H as [-> H]. simpl. now apply IH.
Qed.

Lemma get_substr (Cand : string) (i : nat) :
  String.get i Cand
  = match substr Cand i with
    | String d _ => Some d
    | EmptyString => None
    end.
Proof.
  revert Cand; induction i as [|i IH]; intros [|a s]; simpl;
    try reflexivity. apply IH.
Qed.

Lemma substr_S (Cand : string) (i : nat) :
  substr Cand (S i)
  = match substr Cand i with
    | String _ r => r
    | EmptyString => EmptyString
    end.
Proof.
  revert Cand; induction i as [|i IH]; intros [|a s]; try reflexivity.
  change (substr s (S i)
          = match substr s i with
            | String _ r => r
            | EmptyString => EmptyString
            end).
  apply IH.
Qed.

Section RootMore.

Context {A : Arena}.

Lemma mismatch_range (k : nat) (R : string) : forall Cand i,
  i <= mismatch R k Cand i <= i + String.length R.
Proof.
  induction R as [|c R IH]; intros Cand i; simpl; [lia|].
  destruct (Ascii.eqb c (deref k Cand i)); [|lia].
  specialize (IH Cand (S i)). lia.
Qed.

(** As far as the candidate goes, the bytes the scan went over are the
    bytes of the candidate, whatever the memory holds past its end. *)
Lemma mismatch_agrees (k : nat) (R : string) : forall Cand i,
  startswith (substr Cand i)
    (truncate R (Nat.min (mismatch R k Cand i - i)
                         (String.length (substr Cand i)))) = true.
Proof.
  induction R as [|c R IH]; intros Cand i.
  - rewrite truncate_empty. apply startswith_empty.
  - simpl mismatch. unfold deref. rewrite get_substr.
    pose proof (substr_S Cand i) as HS.
    destruct (substr Cand i) as [|d r] eqn:E.
    + rewrite Nat.min_0_r. reflexivity.
    + destruct (Ascii.eqb c d) eqn:Ecd.
      * pose proof (mismatch_range k R Cand (S i)) as Hr.
        specialize (IH Cand (S i)). rewrite HS in IH.
        replace (mismatch R k Cand (S i) - i)
          with (S (mismatch R k Cand (S i) - S i)) by lia.
        simpl. rewrite IH. apply Ascii.eqb_eq in Ecd. subst d.
        now rewrite Ascii.eqb_refl.
      * rewrite Nat.sub_diag. reflexivity.
Qed.

Lemma getRoot_loop_any (Rest : list string) : forall RootStr k,
  startswith RootStr (getRoot_loop RootStr k Rest) = true /\
  Forall (fun Cand =>
            startswith Cand
              (truncate (getRoot_loop RootStr k Rest) (String.length Cand))
            = true) Rest.
Proof.
  induction Rest as [|Cand Rest IH]; intros RootStr k; simpl.
  - split; [apply startswith_refl | constructor].
  - destruct (IH (truncate RootStr (mismatch RootStr k Cand 0)) (S k))
      as [H1 H2].
    split; [|constructor; [|exact H2]].
    + eapply startswith_trans; [apply startswith_truncate | exact H1].
    + pose proof (mismatch_agrees k RootStr Cand 0) as Hag.
      rewrite Nat.sub_0_r in Hag. simpl substr in Hag.
      eapply startswith_trans; [exact Hag|].
      rewrite <- truncate_truncate. now apply truncate_prefix.
Qed.

(** X11: whatever the memory holds past the end of the candidates, the root
    is a prefix of the first candidate, so the root followed by the first
    stem is the first candidate, and the root agrees with every candidate
    as far as that candidate goes: a root that is not a prefix of a
    candidate is that candidate followed by stray bytes. *)
Theorem getRoot_any_memory (C : REPLCompletions) (S0 : string)
    (Rest : list string) :
  Root C = None ->
  CompletionInsertableStrings C = S0 :: Rest ->
  startswith S0 (fst (getRoot C)) = true /\
  fst (getRoot C) ++ substr S0 (String.length (fst (getRoot C))) = S0 /\
  Forall (fun Cand =>
            startswith Cand (truncate (fst (getRoot C)) (String.length Cand))
            = true) (S0 :: Rest).
Proof.
  intros HR HC. unfold getRoot. rewrite HR, HC. simpl fst.
  destruct (getRoot_loop_any (S0 :: Rest) S0 0) as [H1 H2].
  split; [exact H1|]. split; [|exact H2].
  symmetry. now apply startswith_substr.
Qed.

Lemma mismatch_reads_lt (k : nat) (R : string) : forall Cand i,
  Forall (fun j => j < i + String.length R) (mismatch_reads R k Cand i).
Proof.
  induction R as [|c R IH]; intros Cand i; simpl; [constructor|].
  constructor; [lia|].
  destruct (Ascii.eqb c (deref k Cand i)); [|constructor].
  eapply Forall_impl; [|apply (IH Cand (S i))]. simpl. intros j Hj. lia.
Qed.

Lemma mismatch_reads_not_proper_prefix (k : nat) (R : string) :
  forall pre rest : string,
    (forall c t, R <> rest ++ String c t) ->
    Forall (fun j => j < String.length (pre ++ rest))
           (mismatch_reads R k (pre ++ rest) (String.length pre)).
Proof.
  induction R as [|c R IH]; intros pre rest Hn; simpl; [constructor|].
  destruct rest as [|d rest]; [exfalso; now apply (Hn c R)|].
  constructor; [rewrite length_append; simpl; lia|].
  unfold deref. rewrite get_app_length. simpl.
  destruct (Ascii.eqb c d) eqn:Ecd; [|constructor].
  apply Ascii.eqb_eq in Ecd. subst d.
  specialize (IH (pre ++ String c "") rest).
  rewrite append_assoc in IH. simpl in IH.
  replace (String.length (pre ++ String c "")) with (S (String.length pre))
    in IH by (rewrite length_append; simpl; lia).
  apply IH. intros c' t E. apply (Hn c' t). simpl. now rewrite E.
Qed.

(** X12: one scan of [getRoot] reads past the end of the candidate exactly
    when the candidate is a proper prefix of [RootStr] ([RootStr] is the
    candidate followed by at least one byte), whatever the memory holds. *)
Theorem mismatch_overread_iff (k : nat) (RootStr Cand : string) :
  Forall (fun j => j < String.length Cand) (mismatch_reads RootStr k Cand 0)
  <-> ~ exists c t, RootStr = Cand ++ String c t.
Proof.
  split.
  - intros Hall (c & t & ->).
    pose proof (mismatch_reads_proper_prefix k Cand "" c t) as Hin.
    simpl in Hin. rewrite Forall_forall in Hall.
    specialize (Hall _ Hin). lia.
  - intros Hn.
    apply (mismatch_reads_not_proper_prefix k RootStr "" Cand).
    intros c t E. apply Hn. now exists c, t.
Qed.

Lemma getRoot_loop_reads_shortest (Rest : list string) : forall RootStr k n,
  String.length RootStr <= n ->
  Forall (fun Cand => n <= String.length Cand) Rest ->
  Forall in_bounds (getRoot_loop_reads RootStr k Rest).
Proof.
  induction Rest as [|Cand Rest IH]; intros RootStr k n Hn Hall; simpl;
    [constructor|].
  apply Forall_inv in Hall as Hhd. apply Forall_inv_tail in Hall.
  apply Forall_app. split.
  - apply Forall_forall. intros c Hc. apply in_map_iff in Hc as (j & <- & Hj).
    pose proof (mismatch_reads_lt k RootStr Cand 0) as Hlt.
    rewrite Forall_forall in Hlt. specialize (Hlt _ Hj).
    unfold in_bounds; simpl. lia.
  - apply (IH _ _ n); [|exact Hall].
    pose proof (truncate_length RootStr (mismatch RootStr k Cand 0)). lia.
Qed.

(** X13: when no candidate is shorter than the first one, no comparison of
    [getRoot] leaves the strings it compares, and the root is the longest
    string that is a prefix of every candidate, whatever the memory
    holds. *)
Theorem getRoot_first_shortest (C : REPLCompletions) (S0 : string)
    (Rest : list string) :
  Root C = None ->
  CompletionInsertableStrings C = S0 :: Rest ->
  Forall (fun Cand => String.length S0 <= String.length Cand) Rest ->
  Forall in_bounds (getRoot_reads C) /\
  longest_common_prefix (fst (getRoot C)) (S0 :: Rest).
Proof.
  intros HR HC Hall.
  assert (Hb : Forall in_bounds (getRoot_reads C)).
  { unfold getRoot_reads. rewrite HR, HC.
    apply (getRoot_loop_reads_shortest _ _ _ (String.length S0));
      [lia | constructor; [lia | exact Hall]]. }
  split; [exact Hb|]. rewrite <- HC.
  apply getRoot_in_bounds; [exact HR | rewrite HC; discriminate | exact Hb].
Qed.

(** X14: when every comparison of [getRoot] stays inside both strings, the
    root is the longest string that is a prefix of every stored insertable
    string, and the root followed by the stem of a candidate is that
    candidate. *)
Theorem getRoot_in_bounds_round_trip (C : REPLCompletions) :
  Root C = None ->
  CompletionInsertableStrings C <> [] ->
  Forall in_bounds (getRoot_reads C) ->
  longest_common_prefix (fst (getRoot C)) (CompletionInsertableStrings C) /\
  Forall (fun Cand =>
            fst (getRoot C) ++ substr Cand (String.length (fst (getRoot C)))
            = Cand) (CompletionInsertableStrings C).
Proof.
  intros HR Hne Hb.
  pose proof (getRoot_in_bounds C HR Hne Hb) as Hl.
  split; [exact Hl|].
  destruct Hl as [Hc _]. eapply Forall_impl; [|exact Hc].
  intros Cand H. symmetry. now apply startswith_substr.
Qed.

End RootMore.

Lemma getRoot_any_memory_witness :
  startswith "pendValue"
    (fst (@getRoot Toy.stale (Toy.stored ["pendValue"; "pend"]))) = true /\
  fst (@getRoot Toy.stale (Toy.stored ["pendValue"; "pend"]))
    ++ substr "pendValue"
         (String.length
            (fst (@getRoot Toy.stale (Toy.stored ["pendValue"; "pend"]))))
  = "pendValue" /\
  Forall (fun Cand =>
            startswith Cand
              (truncate
                 (fst (@getRoot Toy.stale (Toy.stored ["pendValue"; "pend"])))
                 (String.length Cand)) = true)
         ["pendValue"; "pend"].
Proof.
  exact (@getRoot_any_memory Toy.stale (Toy.stored ["pendValue"; "pend"])
           "pendValue" ["pend"] eq_refl eq_refl).
Defined.

Lemma getRoot_first_shortest_witness :
  Forall in_bounds (@getRoot_reads Toy.stale (Toy.stored ["ing"; "ingProtocol"]))
  /\ longest_common_prefix
       (fst (@getRoot Toy.stale (Toy.stored ["ing"; "ingProtocol"])))
       ["ing"; "ingProtocol"].
Proof.
  apply (@getRoot_first_shortest Toy.stale (Toy.stored ["ing"; "ingProtocol"])
           "ing" ["ingProtocol"]).
  - reflexivity.
  - reflexivity.
  - repeat constructor.
Defined.

Lemma getRoot_in_bounds_round_trip_witness :
  longest_common_prefix
    (fst (@getRoot Toy.zeros (Toy.stored ["ing"; "ingProtocol"])))
    ["ing"; "ingProtocol"] /\
  Forall (fun Cand =>
            fst (@getRoot Toy.zeros (Toy.stored ["ing"; "ingProtocol"]))
              ++ substr Cand
                   (String.length
                      (fst (@getRoot Toy.zeros
                              (Toy.stored ["ing"; "ingProtocol"]))))
            = Cand) ["ing"; "ingProtocol"].
Proof.
  apply (@getRoot_in_bounds_round_trip Toy.zeros
           (Toy.stored ["ing"; "ingProtocol"])).
  - reflexivity.
  - discriminate.
  - vm_compute. repeat constructor.
Defined.

(** * One candidate, and none *)

Section Few.

Context {F : Frontend} {A : Arena}.

Local Abbreviation TU := (TranslationUnit Decl DiagnosticConsumer).

Lemma mismatch_self (k : nat) (R : string) : forall pre : string,
  mismatch R k (pre ++ R) (String.length pre)
  = String.length pre + String.length R.
Proof.
  induction R as [|c R IH]; intros pre; simpl; [lia|].
  unfold deref. rewrite get_app_length. simpl. rewrite Ascii.eqb_refl.
  specialize (IH (pre ++ String c "")).
  rewrite append_assoc in IH. simpl in IH.
  replace (String.length (pre ++ String c "")) with (S (String.length pre))
    in IH by (rewrite length_append; simpl; lia).
  rewrite IH. lia.
Qed.

Lemma getRoot_single (C : REPLCompletions) (S0 : string) :
  Root C = None -> CompletionInsertableStrings C = [S0] ->
  fst (getRoot C) = S0.
Proof.
  intros HR HC. unfold getRoot. rewrite HR, HC. simpl.
  pose proof (mismatch_self 0 S0 "") as H. simpl in H. rewrite H.
  apply truncate_all.
Qed.

Lemma getNextStem_single (C : REPLCompletions) (S0 : string) :
  CompletionInsertableStrings C = [S0] -> fst (getRoot C) = S0 ->
  exists C',
    getNextStem C = Some ("", C') /\
    CompletionInsertableStrings C' = [S0] /\ fst (getRoot C') = S0 /\
    CurrentCompletionIdx C' = 0%N.
Proof.
  intros HC HR.
  assert (Hne : CompletionInsertableStrings C <> [])
    by (rewrite HC; discriminate).
  destruct (getNextStem_nonempty C Hne) as (Cand & Hnth & H).
  rewrite HC in Hnth, H. simpl List.length in Hnth, H.
  assert (HI : (if (N.of_nat 1 <=? to_size_t (CurrentCompletionIdx C + 1))%N
                then 0%N else to_size_t (CurrentCompletionIdx C + 1)) = 0%N).
  { destruct (N.leb_spec (N.of_nat 1)
                         (to_size_t (CurrentCompletionIdx C + 1)));
      [reflexivity | lia]. }
  rewrite HI in Hnth, H. simpl in Hnth. injection Hnth as <-.
  rewrite HR, substr_all in H.
  eexists. split; [exact H|].
  pose proof (getRoot_fields C) as (_ & _ & _ & _ & F5 & _).
  simpl. rewrite F5, HC, getRoot_setIdx, getRoot_cached.
  repeat split. exact HR.
Qed.

Lemma getNextStems_single (S0 : string) (n : nat) : forall C,
  CompletionInsertableStrings C = [S0] -> fst (getRoot C) = S0 ->
  exists C', getNextStems n C = Some (repeat "" n, C').
Proof.
  induction n as [|n IH]; intros C HC HR; simpl.
  - now exists C.
  - destruct (getNextStem_single C S0 HC HR) as (C1 & H & HC1 & HR1 & _).
    rewrite H. destruct (IH C1 HC1 HR1) as (C' & H').
    rewrite H'. now exists C'.
Qed.

(** X15: when [populate] returns in the state [Unique], the root is the
    whole of the one candidate, whatever the memory holds, and every call of
    [getNextStem] returns the empty stem and selects that candidate; the
    completion is all in the root. *)
Theorem populate_unique (fuel : nat) (T : TU) (EnteredCode : string)
    (C0 : REPLCompletions) (T' : TU) (C : REPLCompletions) :
  populate fuel T EnteredCode C0 = Returns (T', C) ->
  State C = Unique ->
  exists S0,
    CompletionInsertableStrings C = [S0] /\
    fst (getRoot C) = S0 /\
    Forall in_bounds (getRoot_reads C) /\
    (forall n, exists C', getNextStems n C = Some (repeat "" n, C')) /\
    (exists C',
        getNextStem C = Some ("", C') /\ CurrentCompletionIdx C' = 0%N).
Proof.
  intros Hpop HS.
  pose proof (populate_cursor _ _ _ _ _ _ Hpop) as [_ HR].
  apply populate_classifies in Hpop as [C2 ->].
  unfold classify in HS; simpl in HS, HR.
  destruct (CompletionInsertableStrings C2) as [|S0 [|b l]] eqn:E;
    try discriminate.
  assert (HC : CompletionInsertableStrings (classify C2) = [S0]) by exact E.
  pose proof (getRoot_single (classify C2) S0 HR HC) as Hroot.
  exists S0. split; [exact HC|]. split; [exact Hroot|]. split; [|split].
  - unfold getRoot_reads, classify. cbn [Root CompletionInsertableStrings].
    rewrite HR, E.
    apply (getRoot_loop_reads_shortest _ _ _ (String.length S0));
      [lia | constructor; [lia | constructor]].
  - intros n. now apply (getNextStems_single S0).
  - destruct (getNextStem_single (classify C2) S0 HC Hroot)
      as (C' & H & _ & _ & HI).
    now exists C'.
Qed.

(** X16: when [populate] returns with no candidate, the state is [Empty],
    [getRoot] returns the empty string without a comparison, and
    [getNextStem] and [getPreviousStem] return the empty string and leave
    the session as it is, the cursor unset. *)
Theorem populate_empty (fuel : nat) (T : TU) (EnteredCode : string)
    (C0 : REPLCompletions) (T' : TU) (C : REPLCompletions) :
  populate fuel T EnteredCode C0 = Returns (T', C) ->
  CompletionInsertableStrings C = [] ->
  State C = Empty /\
  CompletionStrings C = [] /\
  fst (getRoot C) = "" /\
  getRoot_reads C = [] /\
  getNextStem C = Some ("", C) /\
  getPreviousStem C = Some ("", C) /\
  CurrentCompletionIdx C = SIZE_MAX.
Proof.
  intros Hpop HC.
  pose proof (populate_cursor _ _ _ _ _ _ Hpop) as [HI HR].
  assert (HCS : CompletionStrings C = []).
  { apply populate_lists in Hpop as (T1 & B1 & Batches1 & _ & H).
    destruct H as [(_ & _ & _ & HI' & HS')
                  | (tk & B2 & Batches2 & _ & _ & _ & _ & HI' & HS')];
      rewrite HI' in HC; rewrite HS';
      unfold stored_display, stored_insertable in *.
    - apply map_eq_nil in HC. now rewrite HC.
    - apply app_eq_nil in HC as [H1 H2].
      apply map_eq_nil in H1, H2. now rewrite H1, H2. }
  apply populate_classifies in Hpop as [C2 ->].
  unfold classify in *; simpl in *.
  rewrite HC. repeat split; try assumption.
  - unfold getRoot. simpl. now rewrite HR.
  - unfold getRoot_reads. simpl. now rewrite HR.
  - unfold getPreviousStem. simpl. now rewrite orb_true_r.
Qed.

End Few.

Lemma populate_unique_witness :
  exists T' C S0,
    @populate Toy.plain 2 Toy.program "let x = I" (newCompletions 0)
    = Returns (T', C) /\
    CompletionInsertableStrings C = [S0] /\
    fst (@getRoot Toy.stale C) = S0.
Proof.
  eexists _, _.
  edestruct (@populate_unique Toy.plain Toy.stale 2 Toy.program "let x = I"
               (newCompletions 0)) as (S0 & HC & HR & _).
  - vm_compute. reflexivity.
  - vm_compute. reflexivity.
  - exists S0. split; [vm_compute; reflexivity|]. split; [exact HC | exact HR].
Defined.

Lemma populate_empty_witness :
  exists T' C,
    @populate Toy.plain 2 Toy.program "let x = Zz" (newCompletions 0)
    = Returns (T', C) /\
    State C = Empty /\
    @getNextStem Toy.zeros C = Some ("", C).
Proof.
  eexists _, _.
  edestruct (@populate_empty Toy.plain Toy.zeros 2 Toy.program "let x = Zz"
               (newCompletions 0)) as (HS & _ & _ & _ & HN & _).
  - vm_compute. reflexivity.
  - vm_compute. reflexivity.
  - split; [vm_compute; reflexivity|]. split; [exact HS | exact HN].
Defined.

(** * A new session, and longer completion strings *)

(** X17: a new session can be read at once: the constructor leaves
    [CurrentCompletionIdx] uninitialised, and whatever it holds, [getRoot],
    [getNextStem] and [getPreviousStem] return the empty string, without an
    access to the empty vectors, and leave the state [Invalid] and the
    cursor as it was. *)
Theorem newCompletions_readable (A : Arena) (Idx : N) :
  State (newCompletions Idx) = Invalid /\
  getRoot (newCompletions Idx) = ("", setRoot (newCompletions Idx) "") /\
  getRoot_reads (newCompletions Idx) = [] /\
  getNextStem (newCompletions Idx) = Some ("", newCompletions Idx) /\
  getPreviousStem (newCompletions Idx) = Some ("", newCompletions Idx) /\
  getNextStem (snd (getRoot (newCompletions Idx)))
  = Some ("", snd (getRoot (newCompletions Idx))).
Proof.
  repeat split. unfold getPreviousStem. simpl. now rewrite orb_true_r.
Qed.

Lemma toInsertableString_loop_grows (l1 l2 : list Chunk) : forall Str,
  startswith (toInsertableString_loop Str (l1 ++ l2))
             (toInsertableString_loop Str l1) = true.
Proof.
  induction l1 as [|C l1 IH]; intros Str; simpl.
  - rewrite toInsertableString_loop_spec. apply startswith_app.
  - destruct (Chunk.getKind C); solve [apply IH | apply startswith_refl].
Qed.

(** X18: chunks added at the end of a completion string never change what
    the insertable string already has: the insertable string of the longer
    result starts with the one of the shorter. *)
Theorem toInsertableString_grows (l1 l2 : list Chunk)
    (display display' : string) :
  startswith (toInsertableString (mkResult (l1 ++ l2) display))
             (toInsertableString (mkResult l1 display')) = true.
Proof. apply toInsertableString_loop_grows. Qed.

(** * The cursor when the scan stays in bounds, and [reset] *)

Section CursorMore.

Context {F : Frontend} {A : Arena}.

Local Abbreviation TU := (TranslationUnit Decl DiagnosticConsumer).

Lemma getNextStems_S (n : nat) (C : REPLCompletions) :
  getNextStems (S n) C
  = match getNextStem C with
    | Some (Stem, C1) =>
        match getNextStems n C1 with
        | Some (Stems, C2) => Some (Stem :: Stems, C2)
        | None => None
        end
    | None => None
    end.
Proof. reflexivity. Qed.

(** After the first of some calls of [getNextStem] the root is cached, so
    the later calls compare nothing. *)
Lemma getNextStems_caches (n : nat) : forall C Stems C',
  CompletionInsertableStrings C <> [] ->
  getNextStems (S n) C = Some (Stems, C') ->
  Root C' = Some (fst (getRoot C)).
Proof.
  induction n as [|n IH]; intros C Stems C' Hne H;
    rewrite getNextStems_S in H;
    destruct (getNextStem C) as [[Stem C1]|] eqn:E; try discriminate.
  - simpl in H. injection H as _ <-.
    apply getNextStem_frame in E as (_ & _ & _ & _ & HR).
    now rewrite (isEmpty_false _ Hne) in HR.
  - destruct (getNextStems (S n) C1) as [[Stems1 C2]|] eqn:E1; [|discriminate].
    injection H as _ <-.
    apply getNextStem_frame in E as (_ & _ & _ & HC & HR).
    rewrite (isEmpty_false _ Hne) in HR.
    rewrite (IH C1 Stems1 C2); [|now rewrite HC | exact E1].
    now rewrite (getRoot_value C1), HR.
Qed.

(** X19: after a [populate] that stores at least one candidate, when every
    comparison of [getRoot] stays inside both strings, the root is the
    longest common prefix of the candidates, and the calls of [getNextStem]
    return, one after the other, the candidates without that prefix, in
    storage order, starting again with candidate 0 after the last one; the
    root followed by a stem is the candidate; the cursor is the position of
    the candidate returned last, and after the first call the root is
    cached, so no later call compares anything. *)
Theorem getNextStem_cycles_in_bounds (fuel : nat) (T : TU)
    (EnteredCode : string) (C0 : REPLCompletions) (T' : TU)
    (C : REPLCompletions) :
  populate fuel T EnteredCode C0 = Returns (T', C) ->
  (N.of_nat (List.length (CompletionInsertableStrings C)) < 2 ^ 64)%N ->
  1 <= List.length (CompletionInsertableStrings C) ->
  Forall in_bounds (getRoot_reads C) ->
  let v := CompletionInsertableStrings C in
  exists root,
    longest_common_prefix root v /\
    Forall (fun Cand => root ++ substr Cand (String.length root) = Cand) v /\
    (forall n, exists C',
        getNextStems n C
        = Some (map (fun k =>
                       substr (nth (k mod List.length v) v "")
                              (String.length root))
                    (seq 0 n), C') /\
        CompletionInsertableStrings C' = v /\
        (1 <= n ->
         CurrentCompletionIdx C' = N.of_nat ((n - 1) mod List.length v) /\
         Root C' = Some root /\ getRoot_reads C' = [])) /\
    (exists C',
        getNextStems (List.length v) C
        = Some (map (fun Cand => substr Cand (String.length root)) v, C')).
Proof.
  intros Hpop Hlen Hpos Hb v.
  apply populate_cursor in Hpop as [Hidx HR].
  assert (Hne : CompletionInsertableStrings C <> [])
    by (destruct (CompletionInsertableStrings C);
        [simpl in Hpos; lia | discriminate]).
  pose proof (getRoot_in_bounds C HR Hne Hb) as Hl.
  exists (fst (getRoot C)). split; [exact Hl|]. split; [|split].
  - destruct Hl as [Hc _]. eapply Forall_impl; [|exact Hc].
    intros Cand H. symmetry. now apply startswith_substr.
  - intros n.
    destruct (getNextStems_unset C n Hne Hlen Hidx) as (C' & H1 & H2 & H3 & _).
    exists C'. split; [exact H1|]. split; [exact H2|].
    intros Hn. split; [now apply H3|].
    destruct n as [|n]; [lia|].
    pose proof (getNextStems_caches n C _ C' Hne H1) as Hc.
    split; [exact Hc|]. unfold getRoot_reads. now rewrite Hc.
  - destruct (getNextStems_unset C (List.length v) Hne Hlen Hidx)
      as (C' & H1 & _).
    exists C'. fold v in H1. rewrite H1. do 2 f_equal.
    apply (map_nth_seq (fun Cand => substr Cand
                                      (String.length (fst (getRoot C))))
                       "" v).
Qed.

(** X20: [getPreviousStem] called after a [getNextStem] returns the stem
    that call returned and leaves the session as it is, cursor and cached
    root included; it compares nothing, the root being cached. *)
Theorem getPreviousStem_after_getNextStem (C : REPLCompletions)
    (Stem : string) (C1 : REPLCompletions) :
  CompletionInsertableStrings C <> [] ->
  (N.of_nat (List.length (CompletionInsertableStrings C)) < 2 ^ 64)%N ->
  getNextStem C = Some (Stem, C1) ->
  getPreviousStem C1 = Some (Stem, C1) /\
  getRoot_reads C1 = [] /\
  (CurrentCompletionIdx C1
   < N.of_nat (List.length (CompletionInsertableStrings C1)))%N.
Proof.
  intros Hne Hlen Hnext.
  pose proof (getRoot_fields C) as (F1 & F2 & F3 & F4 & F5 & F6).
  destruct (getNextStem_nonempty C Hne) as (Cand & Hnth & Hnext').
  rewrite Hnext' in Hnext. injection Hnext as <- <-.
  set (Idx := (if (N.of_nat (List.length (CompletionInsertableStrings C))
                     <=? to_size_t (CurrentCompletionIdx C + 1))%N
               then 0%N else to_size_t (CurrentCompletionIdx C + 1))) in *.
  assert (Hlt : (Idx < N.of_nat
                         (List.length (CompletionInsertableStrings C)))%N).
  { assert (Hs : nth_error (CompletionInsertableStrings C) (N.to_nat Idx)
                 <> None) by (rewrite Hnth; discriminate).
    apply nth_error_Some in Hs. lia. }
  split; [|split].
  - unfold getPreviousStem. simpl.
    replace (Idx =? SIZE_MAX)%N with false
      by (symmetry; apply N.eqb_neq; unfold SIZE_MAX; lia).
    rewrite F5, (isEmpty_false _ Hne), Hnth. simpl.
    rewrite getRoot_setIdx, getRoot_cached. reflexivity.
  - unfold getRoot_reads. simpl. now rewrite F3.
  - simpl. now rewrite F5.
Qed.

End CursorMore.

Section ResetMore.

Context {A : Arena}.

(** X21: [reset] changes the state and nothing else, and the calls that
    read the session do after it what they do without it: [getRoot] makes
    the same comparisons and returns the same root, and [getNextStem] and
    [getPreviousStem] return the same stem, or access the vector outside of
    its elements alike; the sessions they leave differ by the state only.
    A second [reset] changes nothing. *)
Theorem reset_changes_state_only (C : REPLCompletions) :
  (State (reset C) = Invalid /\
   Prefix (reset C) = Prefix C /\
   Root (reset C) = Root C /\
   CompletionStrings (reset C) = CompletionStrings C /\
   CompletionInsertableStrings (reset C) = CompletionInsertableStrings C /\
   CurrentCompletionIdx (reset C) = CurrentCompletionIdx C) /\
  reset (reset C) = reset C /\
  getRoot_reads (reset C) = getRoot_reads C /\
  getRoot (reset C) = (fst (getRoot C), reset (snd (getRoot C))) /\
  getNextStem (reset C)
  = match getNextStem C with
    | Some (Stem, C') => Some (Stem, reset C')
    | None => None
    end /\
  getPreviousStem (reset C)
  = match getPreviousStem C with
    | Some (Stem, C') => Some (Stem, reset C')
    | None => None
    end.
Proof.
  assert (HR : forall C0, getRoot (reset C0)
                          = (fst (getRoot C0), reset (snd (getRoot C0))))
    by (intros [St P [R|] CS [|S0 CIS] Idx]; reflexivity).
  split; [repeat split|]. split; [reflexivity|]. split; [reflexivity|].
  split; [apply HR|]. split.
  - unfold getNextStem.
    change (CompletionInsertableStrings (reset C))
      with (CompletionInsertableStrings C).
    change (CurrentCompletionIdx (reset C)) with (CurrentCompletionIdx C).
    destruct (isEmpty (CompletionInsertableStrings C)); [reflexivity|].
    set (Idx := (if (N.of_nat (List.length (CompletionInsertableStrings C))
                       <=? to_size_t (CurrentCompletionIdx C + 1))%N
                 then 0%N else to_size_t (CurrentCompletionIdx C + 1))).
    change (setIdx (reset C) Idx) with (reset (setIdx C Idx)).
    change (CompletionInsertableStrings (reset (setIdx C Idx)))
      with (CompletionInsertableStrings (setIdx C Idx)).
    destruct (nth_error _ _) as [Cand|]; [|reflexivity].
    rewrite HR. now destruct (getRoot (setIdx C Idx)).
  - unfold getPreviousStem.
    change (CompletionInsertableStrings (reset C))
      with (CompletionInsertableStrings C).
    change (CurrentCompletionIdx (reset C)) with (CurrentCompletionIdx C).
    destruct (_ || _); [reflexivity|].
    destruct (nth_error _ _) as [Cand|]; [|reflexivity].
    rewrite HR. now destruct (getRoot C).
Qed.

End ResetMore.

Lemma getNextStem_cycles_in_bounds_witness :
  exists C',
    @getNextStems Toy.zeros 3 (snd Toy.populated_plain)
    = Some (map (fun k =>
                   substr (nth (k mod 2) ["ing"; "ingProtocol"] "")
                          (String.length "ing"))
                [0; 1; 2], C').
Proof.
  destruct (@getNextStem_cycles_in_bounds Toy.plain Toy.zeros 2 Toy.program
              Toy.entered (newCompletions 0) (fst Toy.populated_plain)
              (snd Toy.populated_plain) Toy_populate_plain eq_refl
              (le_S 1 1 (le_n 1)))
    as (root & Hl & _ & Hn & _).
  - vm_compute. repeat constructor.
  - assert (E : root = "ing").
    { destruct Hl as [Hc Hmax].
      apply Forall_inv in Hc as H1.
      assert (H3 : String.length "ing" <= String.length root)
        by (apply Hmax; repeat constructor).
      apply startswith_substr in H1.
      destruct root as [|a [|b [|c [|d r]]]]; simpl in H3; try lia.
      - simpl in H1. now injection H1 as -> -> ->.
      - discriminate H1. }
    subst root. destruct (Hn 3) as (C' & E & _).
    exists C'. exact E.
Defined.

Lemma getPreviousStem_after_getNextStem_witness :
  exists C1,
    @getNextStem Toy.zeros (snd Toy.populated_before) = Some ("String", C1) /\
    @getPreviousStem Toy.zeros C1 = Some ("String", C1).
Proof.
  eexists. split; [vm_compute; reflexivity|].
  eapply (@getPreviousStem_after_getNextStem Toy.zeros
            (snd Toy.populated_before)).
  - discriminate.
  - reflexivity.
  - vm_compute. reflexivity.
Defined.
